(** * First-time-investor predictions API: the serving layer of [deployment.py]

    The program is a thin request handler over two libraries, and the
    development follows that layering:
    - [npysort]: the index sort that [DataFrame.sort_values] reaches when it
      is called, as here, with its default [kind="quicksort"]: numpy's
      introsort over an index array (quicksort with a median-of-three
      pivot, insertion sort for short runs, heap sort once the depth budget
      is spent), after [npysort/quicksort.cpp] and [npysort/heapsort.cpp];
    - [pandas]: series and frames, [nargsort] (after
      [pandas/core/sorting.py]), [sort_values], [head], [reset_index],
      [to_dict], [to_csv];
    - the module itself: [ModelChoice], [MODEL_FILES], [_load_predictions],
      [_top_rows], [get_predictions] and the query defaults of the
      [/predictions] route.

    The definitions come first; the properties of the sort, of the frames
    and of the service follow. *)

From Stdlib Require Import QArith OrderedTypeEx.
From stdpp Require Import base list sorting strings gmap pretty.

Open Scope nat_scope.

(** ** The index sort behind [sort_values]

    [argsort] never moves the keys: it permutes an array of positions
    ([tosort]) and compares the keys [v] found at those positions with the
    strict comparison [less] of the column's dtype.  This is the portable
    implementation; positions are natural numbers, and a run between the
    pointers [pl] and [pr] is the list of the positions it holds.

    Where equal keys end up is a matter of the implementation: builds of
    numpy that sort numeric columns with vectorised kernels place them
    otherwise than this code does.  The properties of the service
    therefore use of [argsort] only that it returns the positions
    rearranged so that the keys never go down; the places of equal keys
    are looked at once, in an example with equal strings, which are sorted
    by this code. *)
Module npysort.
Section npysort.
Context {K : Type} `{!Inhabited K} (less : K → K → bool).
(** the key array [vv] *)
Variable v : list K.

(** [Tag::less(v[i], v[j])] *)
Definition lt (i j : nat) : bool := less (v !!! i) (v !!! j).

(** A run of more than [SMALL_QUICKSORT + 1] positions is partitioned. *)
Definition SMALL_QUICKSORT : nat := 15.

(** [INTP_SWAP(a[i], a[j])] *)
Definition swap (a : list nat) (i j : nat) : list nat :=
  <[i := a !!! j]> (<[j := a !!! i]> a).

(** *** Insertion sort of a short run

    [while (pj > pl && less(vp, v[*pk])) { *pj-- = *pk--; } *pj = vi;]
    with [pk = pj - 1] throughout. *)
Fixpoint shift (a : list nat) (vi : nat) (pj : nat) : list nat :=
  match pj with
  | 0 => <[0 := vi]> a
  | S pk =>
      if lt vi (a !!! pk)
      then shift (<[S pk := a !!! pk]> a) vi pk
      else <[S pk := vi]> a
  end.

(** [for (pi = pl + 1; pi <= pr; ++pi) { vi = *pi; ... }] *)
Definition insertion_sort (a : list nat) : list nat :=
  foldl (λ a pi, shift a (a !!! pi) pi) a (seq 1 (length a - 1)).

(** *** Heap sort, the fallback once the recursion budget is spent

    The C code indexes the heap from one ([a = tosort - 1]); [hp a k] reads
    [a[k]] and [hset] writes it. *)
Definition hp (a : list nat) (k : nat) : nat := a !!! (k - 1).
Definition hset (a : list nat) (k x : nat) : list nat := <[k - 1 := x]> a.

(** [for (i, j; j <= n;) { if (j < n && less(v[a[j]], v[a[j+1]])) j += 1;
      if (less(v[tmp], v[a[j]])) { a[i] = a[j]; i = j; j += j; } else break; }
    a[i] = tmp;] *)
Fixpoint sift (fuel : nat) (a : list nat) (tmp n i j : nat) : list nat :=
  match fuel with
  | 0 => hset a i tmp
  | S fuel =>
      if n <? j then hset a i tmp
      else
        let j := if (j <? n) && lt (hp a j) (hp a (j + 1)) then j + 1 else j in
        if lt tmp (hp a j)
        then sift fuel (hset a i (hp a j)) tmp n j (j + j)
        else hset a i tmp
  end.

(** [for (l = n >> 1; l > 0; --l) { tmp = a[l]; sift from l }] *)
Definition heapify (a : list nat) (n : nat) : list nat :=
  foldl (λ a l, sift n a (hp a l) n l (l + l)) a (reverse (seq 1 (n / 2))).

(** [for (; n > 1;) { tmp = a[n]; a[n] = a[1]; n -= 1; sift from 1 }] *)
Definition sortdown (a : list nat) (n : nat) : list nat :=
  foldl (λ a n, sift n (hset a n (hp a 1)) (hp a n) (n - 1) 1 2) a
        (reverse (seq 2 (n - 1))).

Definition aheapsort (a : list nat) : list nat :=
  sortdown (heapify a (length a)) (length a).

(** *** Partition of a run of more than [SMALL_QUICKSORT + 1] positions *)

(** [do { ++pi; } while (less(v[*pi], vp));] entered with [pi] already
    advanced; [vp] is kept as the position of the pivot key. *)
Fixpoint scan_up (fuel : nat) (a : list nat) (vp pi : nat) : nat :=
  match fuel with
  | 0 => pi
  | S fuel => if lt (a !!! pi) vp then scan_up fuel a vp (S pi) else pi
  end.

(** [do { --pj; } while (less(vp, v[*pj]));] *)
Fixpoint scan_down (fuel : nat) (a : list nat) (vp pj : nat) : nat :=
  match fuel with
  | 0 => pj
  | S fuel => if lt vp (a !!! pj) then scan_down fuel a vp (pj - 1) else pj
  end.

(** [for (;;) { scan up; scan down; if (pi >= pj) break; swap }] *)
Fixpoint partition_loop (fuel : nat) (a : list nat) (vp pi pj : nat)
  : list nat * nat :=
  match fuel with
  | 0 => (a, pi)
  | S fuel =>
      let pi := scan_up (length a) a vp (S pi) in
      let pj := scan_down (length a) a vp (pj - 1) in
      if pj <=? pi then (a, pi)
      else partition_loop fuel (swap a pi pj) vp pi pj
  end.

(** Median of three, pivot parked at [pr - 1], the two scans, pivot put
    back.  Positions are relative to [pl], so [pl = 0] and
    [pr = length a - 1]. *)
Definition median3 (a : list nat) : list nat :=
  let pr := length a - 1 in
  let pm := pr / 2 in
  let a := if lt (a !!! pm) (a !!! 0) then swap a pm 0 else a in
  let a := if lt (a !!! pr) (a !!! pm) then swap a pr pm else a in
  if lt (a !!! pm) (a !!! 0) then swap a pm 0 else a.

Definition partition (a : list nat) : list nat * nat :=
  let pr := length a - 1 in
  let pm := pr / 2 in
  let a := median3 a in
  let vp := a !!! pm in
  let a := swap a pm (pr - 1) in
  let '(a, pi) := partition_loop (length a) a vp 0 (pr - 1) in
  (swap a pi (pr - 1), pi).

(** *** The introsort loop

    The explicit stack of the C code holds the larger side of each
    partition together with its depth budget; the smaller side is
    partitioned on in the inner loop.  A run taken from the stack
    ([popped]) is heap-sorted when its budget is negative.  Runs are
    disjoint, so each is sorted on its own. *)
Fixpoint aquicksort_run (fuel : nat) (popped : bool) (cdepth : Z)
    (a : list nat) : list nat :=
  match fuel with
  | 0 => a
  | S fuel =>
      if popped && (cdepth <? 0)%Z then aheapsort a
      else if SMALL_QUICKSORT <? length a - 1 then
        let '(a, pi) := partition a in
        let lo := take pi a in
        let hi := drop (S pi) a in
        let cdepth := (cdepth - 1)%Z in
        let small_left := pi <? length a - 1 - pi in
        aquicksort_run fuel (negb small_left) cdepth lo
          ++ a !!! pi :: aquicksort_run fuel small_left cdepth hi
      else insertion_sort a
  end.

(** [npy_get_msb(num) * 2] *)
Definition depth_limit (num : nat) : Z := (2 * Z.of_nat (Nat.log2 num))%Z.

Definition aquicksort (tosort : list nat) : list nat :=
  aquicksort_run (S (length tosort)) false (depth_limit (length tosort)) tosort.
End npysort.

(** [ndarray.argsort(kind="quicksort")]: the index array starts as
    [0, 1, ..., n-1]. *)
Definition argsort {K : Type} `{!Inhabited K} (less : K → K → bool)
    (v : list K) : list nat :=
  aquicksort less v (seq 0 (length v)).
End npysort.

(** ** The part of pandas the module uses *)
Module pandas.

(** A cell of a frame read from CSV: a number (an [int64] or finite
    [float64] value, kept exact as a rational), a string of an [object]
    column, or the missing value [NaN]. *)
Inductive scalar :=
| Num (q : Q)
| Str (s : string)
| NaN.

#[global] Instance scalar_inhabited : Inhabited scalar := populate NaN.

(** [read_csv] infers one dtype per column; a missing cell is [None].  An
    [object] column in which strings stand beside numbers, as the chunked
    inference of a large file can leave behind, is not among the columns
    modelled: Python does not order its cells, and sorting by it ends in a
    [TypeError]. *)
Inductive Series :=
| Numeric (xs : list (option Q))
| Object (xs : list (option string)).

Definition of_num (x : option Q) : scalar := from_option Num NaN x.
Definition of_str (x : option string) : scalar := from_option Str NaN x.

Definition values (s : Series) : list scalar :=
  match s with
  | Numeric xs => of_num <$> xs
  | Object xs => of_str <$> xs
  end.

(** [Series.take(indexer)] *)
Definition take_series (indexer : list nat) (s : Series) : Series :=
  match s with
  | Numeric xs => Numeric ((λ i, xs !!! i) <$> indexer)
  | Object xs => Object ((λ i, xs !!! i) <$> indexer)
  end.

#[global] Instance Q_inhabited : Inhabited Q := populate 0%Q.

(** [<] of the two dtypes: numeric order, and the code-point order of
    strings. *)
Definition Qltb (x y : Q) : bool :=
  match (x ?= y)%Q with Lt => true | _ => false end.

(** [pandas.core.sorting.nargsort] with [na_position="last"]: the missing
    entries are masked out, the present ones are sorted (a descending sort
    reverses them before and after an ascending [argsort]), and the positions
    of the missing entries are appended. *)
Section nargsort.
Context {K : Type} `{!Inhabited K} (less : K → K → bool).

Definition mask (items : list (option K)) (i : nat) : bool :=
  match items !! i with Some None => true | _ => false end.

Definition nargsort_values (items : list (option K)) (ascending : bool)
  : list nat :=
  let idx := seq 0 (length items) in
  let non_nans := omap id items in
  let non_nan_idx := filter (λ i, ¬ mask items i) idx in
  let nan_idx := filter (λ i, mask items i) idx in
  let non_nans := if ascending then non_nans else reverse non_nans in
  let non_nan_idx := if ascending then non_nan_idx else reverse non_nan_idx in
  let indexer := (λ p, non_nan_idx !!! p) <$> npysort.argsort less non_nans in
  let indexer := if ascending then indexer else reverse indexer in
  indexer ++ nan_idx.
End nargsort.

Definition nargsort (items : Series) (ascending : bool) : list nat :=
  match items with
  | Numeric xs => nargsort_values Qltb xs ascending
  | Object xs => nargsort_values String.ltb xs ascending
  end.

(** A frame: named columns and the row labels ([index]). *)
Record DataFrame := mkDataFrame {
  data : list (string * Series);
  index : list nat;
}.

Definition columns (df : DataFrame) : list string := (data df).*1.

(** [len(df)] *)
Definition len (df : DataFrame) : nat := length (index df).

(** [df.empty]: some axis has length zero. *)
Definition empty (df : DataFrame) : bool :=
  (len df =? 0) || (length (columns df) =? 0).

(** [df[name]] *)
Definition column (name : string) (df : DataFrame) : option Series :=
  (λ c, c.2.2) <$> list_find (λ c, c.1 = name) (data df).

(** [df.take(indexer)] *)
Definition take_rows (indexer : list nat) (df : DataFrame) : DataFrame :=
  {| data := prod_map id (take_series indexer) <$> data df;
     index := (λ i, index df !!! i) <$> indexer |}.

(** [df.sort_values(by, ascending=...)]; [None] is the [KeyError] of an
    unknown column. *)
Definition sort_values (by_ : string) (ascending : bool) (df : DataFrame)
  : option DataFrame :=
  k ← column by_ df;
  Some (take_rows (nargsort k ascending) df).

(** [df.head(n)]: the first [n] rows, or all but the last [-n] when [n] is
    negative. *)
Definition head (n : Z) (df : DataFrame) : DataFrame :=
  let stop := if (0 <=? n)%Z then Z.to_nat n else len df - Z.to_nat (- n) in
  take_rows (seq 0 (stop `min` len df)) df.

(** [df.reset_index(drop=True)] *)
Definition reset_index (df : DataFrame) : DataFrame :=
  {| data := data df; index := seq 0 (len df) |}.

(** Row [i] as the mapping column -> value, in column order. *)
Definition record (df : DataFrame) (i : nat) : list (string * scalar) :=
  (λ c, (c.1, values c.2 !!! i)) <$> data df.

(** [df.to_dict(orient="records")] *)
Definition to_dict (df : DataFrame) : list (list (string * scalar)) :=
  record df <$> seq 0 (len df).

(** [df.to_csv(index=False)], kept as the header line and the lines of
    cells rather than as text. *)
Definition to_csv (df : DataFrame) : list string * list (list scalar) :=
  (columns df, (λ i, (λ c, values c.2 !!! i) <$> data df) <$> seq 0 (len df)).

End pandas.

(** ** [deployment.py] *)
Import pandas.

Inductive ModelChoice := logistic_regression | xgboost | weibull_tte_rnn.

#[global] Instance ModelChoice_eq_dec : EqDecision ModelChoice.
Proof. solve_decision. Defined.

(** [model.value] *)
Definition value (m : ModelChoice) : string :=
  match m with
  | logistic_regression => "logistic_regression"
  | xgboost => "xgboost"
  | weibull_tte_rnn => "weibull_tte_rnn"
  end.

Inductive OutputFormat := json | csv.

#[global] Instance OutputFormat_eq_dec : EqDecision OutputFormat.
Proof. solve_decision. Defined.

(** [MODEL_FILES[model_choice].name]: every file sits in
    [PREDICTION_DB_DIR], so a path is identified by its file name. *)
Definition MODEL_FILES (m : ModelChoice) : string :=
  match m with
  | logistic_regression => "logreg_predictions_all.csv"
  | xgboost => "xgb_predictions_all.csv"
  | weibull_tte_rnn => "weibull_tte_predictions_all.csv"
  end.

(** What can leave a handler other than a value: the [HTTPException]s the
    module raises itself, the rejection of a query parameter by the route
    declaration, and the Python exceptions nothing catches. *)
Inductive exception :=
| HTTPException (status_code : Z) (detail : string)
| RequestValidationError
| KeyError (key : string)
| ValueError.

Inductive result (A : Type) :=
| Return (a : A)
| Raise (e : exception).
Arguments Return {A} a.
Arguments Raise {A} e.

#[global] Instance result_bind : MBind result := λ A B f r,
  match r with
  | Return a => f a
  | Raise e => Raise e
  end.

(** A file of the prediction directory, seen through [pd.read_csv]: the
    text of the error it raises, or the frame it returns. *)
Inductive file :=
| Malformed (error : string)
| Table (df : DataFrame).

Definition read_csv (f : file) : string + DataFrame :=
  match f with
  | Malformed error => inl error
  | Table df => inr df
  end.

(** The prediction directory: file name to content; an absent key is a file
    that does not exist. *)
Abbreviation FileSystem := (gmap string file).

Definition _load_predictions (fs : FileSystem) (model_choice : ModelChoice)
  : result DataFrame :=
  let file_path := MODEL_FILES model_choice in
  match fs !! file_path with
  | None =>
      Raise (HTTPException 404
        ("Prediction file not found for model '" +:+ value model_choice
           +:+ "': " +:+ file_path))
  | Some f =>
      match read_csv f with
      | inl error =>
          Raise (HTTPException 500
            ("Failed to read prediction file '" +:+ file_path +:+ "': "
               +:+ error))
      | inr df =>
          if empty df
          then Raise (HTTPException 404
                 ("Prediction file '" +:+ file_path +:+ "' is empty."))
          else Return df
      end
  end.

(** [df.sort_values(by, ascending=...).head(top_x)] *)
Definition sort_head (by_ : string) (ascending : bool) (top_x : Z)
    (df : DataFrame) : result DataFrame :=
  match sort_values by_ ascending df with
  | Some sorted => Return (head top_x sorted)
  | None => Raise (KeyError by_)
  end.

(** The local [ranked] of [_top_rows]. *)
Definition ranked (df : DataFrame) (model_choice : ModelChoice) (top_x : Z)
  : result DataFrame :=
  if bool_decide ("rank" ∈ columns df) then
    sort_head "rank" true top_x df
  else if bool_decide (model_choice ∈ [logistic_regression; xgboost]) then
    if bool_decide ("prob_first_time_investor" ∉ columns df) then
      Raise (HTTPException 422
        "Expected column 'prob_first_time_investor' was not found.")
    else sort_head "prob_first_time_investor" false top_x df
  else
    if bool_decide ("risk_6m" ∉ columns df) then
      Raise (HTTPException 422 "Expected column 'risk_6m' was not found.")
    else sort_head "risk_6m" false top_x df.

Definition _top_rows (df : DataFrame) (model_choice : ModelChoice) (top_x : Z)
  : result DataFrame :=
  ranked ← ranked df model_choice top_x;
  Return (reset_index ranked).

(** The body of the JSON answer. *)
Record content := mkContent {
  model : string;
  top_x : Z;
  count : Z;
  results : list (list (string * scalar));
}.

Inductive Response :=
| JSONResponse (body : content)
| PlainTextResponse (body : list string * list (list scalar))
    (media_type : string) (content_disposition : string).

(** [JSONResponse(content=...)] renders its body on construction with
    [allow_nan=False]: a [NaN] among the values is a [ValueError]. *)
Definition json_compliant (c : content) : bool :=
  forallb (forallb (λ kv, if kv.2 is NaN then false else true)) (results c).

Definition render_json (c : content) : result Response :=
  if json_compliant c then Return (JSONResponse c)
  else Raise ValueError.

Definition get_predictions (fs : FileSystem) (model : ModelChoice)
    (top_x : Z) (output : OutputFormat) : result Response :=
  df ← _load_predictions fs model;
  top_df ← _top_rows df model top_x;
  if bool_decide (output = csv) then
    Return (PlainTextResponse (to_csv top_df) "text/csv"
      ("attachment; filename=" +:+ value model +:+ "_top_" +:+ pretty top_x
         +:+ ".csv"))
  else
    render_json {| model := value model; top_x := top_x;
                   count := Z.of_nat (len top_df);
                   results := to_dict top_df |}.

(** The [/predictions] route: [model] is required, [top_x] is
    [Query(1000, ge=1, le=100000)] and [output] is [Query(OutputFormat.json)].
    An absent parameter is [None]. *)
Definition predictions (fs : FileSystem) (model : ModelChoice)
    (top_x : option Z) (output : option OutputFormat) : result Response :=
  let top_x := default 1000%Z top_x in
  let output := default json output in
  if bool_decide (1 ≤ top_x ≤ 100000)%Z
  then get_predictions fs model top_x output
  else Raise RequestValidationError.


(** [OutputFormat.value] *)
Definition OutputFormat_value (o : OutputFormat) : string :=
  match o with
  | json => "json"
  | csv => "csv"
  end.

(** [ModelChoice(s)] and [OutputFormat(s)], the conversion the route
    applies to the text of a query parameter: the member whose value is
    [s], if there is one. *)
Definition ModelChoice_of_value (s : string) : option ModelChoice :=
  snd <$> list_find (λ m, value m = s)
            [logistic_regression; xgboost; weibull_tte_rnn].

Definition OutputFormat_of_value (s : string) : option OutputFormat :=
  snd <$> list_find (λ o, OutputFormat_value o = s) [json; csv].

(** The [/predictions] route on the query as it arrives: [model] and
    [output] as text, [top_x] after its conversion to an integer. *)
Definition predictions_query (fs : FileSystem) (model : option string)
    (top_x : option Z) (output : option string) : result Response :=
  match model ≫= ModelChoice_of_value, OutputFormat_of_value <$> output with
  | Some m, None => predictions fs m top_x None
  | Some m, Some (Some o) => predictions fs m top_x (Some o)
  | _, _ => Raise RequestValidationError
  end.
(** ** Notions the properties of the sort are stated with *)
Module sortspec.

(** What the sort needs of a dtype's [<]: a strict weak order. *)
Class StrictWeak {K : Type} (less : K → K → bool) : Prop := {
  less_irrefl x : less x x = false;
  less_trans x y z : less x y = true → less y z = true → less x z = true;
  less_neg_trans x y z : less x y = false → less y z = false → less x z = false;
}.

Section sortspec.
Context {K : Type} `{!Inhabited K} (less : K → K → bool).
Variable v : list K.

(** [le i j]: the key at position [i] is not above the key at [j]. *)
Definition le (i j : nat) : Prop := npysort.lt less v j i = false.

(** The run left of the hole of [shift], read right to left, with [x]
    put in its place. *)
Fixpoint ins_rev (x : nat) (r : list nat) : list nat :=
  match r with
  | [] => [x]
  | y :: r' => if npysort.lt less v x y then y :: ins_rev x r' else x :: y :: r'
  end.

(** The state of the scanning loop of [partition]: everything up to [pi] is
    at most the pivot, everything from [pj] on is at least the pivot. *)
Definition split_at (a : list nat) (vp pi pj : nat) : Prop :=
  (∀ k, k ≤ pi → npysort.lt less v vp (a !!! k) = false) ∧
  (∀ k, pj ≤ k < length a → npysort.lt less v (a !!! k) vp = false).

(** Max-heap shape of the entries [1..n]: every node from [l] on, [hole]
    excepted, is at least its children. *)
Definition heap (a : list nat) (l n hole : nat) : Prop :=
  ∀ k c, l ≤ k → k ≠ hole → c = k + k ∨ c = k + k + 1 → c ≤ n →
    le (npysort.hp a c) (npysort.hp a k).

(** The state of the second phase of heap sort: a heap of [s] entries below
    a sorted tail that dominates it. *)
Definition heap_and_tail (a : list nat) (s : nat) : Prop :=
  heap a 1 s 0 ∧ StronglySorted le (drop s a) ∧
  ∀ x y, x ∈ take s a → y ∈ drop s a → le x y.
End sortspec.
End sortspec.

(** ** Notions the properties of the service are stated with *)
Module spec.
Import pandas.

(** Python's [x <= y] on two cells of a column: false as soon as one side
    is [NaN]. *)
Definition scalar_le (x y : scalar) : Prop :=
  match x, y with
  | Num a, Num b => (a <= b)%Q
  | Str a, Str b => String.ltb b a = false
  | _, _ => False
  end.

(** Python's [x == y] on two cells of a column. *)
Definition same_key (x y : scalar) : bool :=
  match x, y with
  | Num a, Num b => Qeq_bool a b
  | Str a, Str b => String.eqb a b
  | _, _ => false
  end.

Definition isna (x : scalar) : bool := if x is NaN then true else false.

(** A column read top to bottom never goes down (up). *)
Definition non_decreasing (l : list scalar) : Prop :=
  ∀ i j x y, i < j → l !! i = Some x → l !! j = Some y → scalar_le x y.

Definition non_increasing (l : list scalar) : Prop :=
  ∀ i j x y, i < j → l !! i = Some x → l !! j = Some y → scalar_le y x.

(** [Series.dropna()] *)
Definition dropna (l : list scalar) : list scalar := filter (λ x, ¬ isna x) l.

(** No missing value stands above a present one. *)
Definition nulls_last (l : list scalar) : Prop :=
  ∀ i j x, i < j → l !! i = Some NaN → l !! j = Some x → x = NaN.

(** The cells of column [name], top to bottom. *)
Definition cells (name : string) (df : DataFrame) : list scalar :=
  from_option values [] (column name df).

(** The value a record gives to [name]. *)
Definition get (name : string) (row : list (string * scalar)) : scalar :=
  from_option (λ r, r.2.2) NaN (list_find (λ kv, kv.1 = name) row).

(** The rows whose [name] cell satisfies [P], in order. *)
Definition rows_with (name : string) (P : scalar → bool)
    (rows : list (list (string * scalar))) : list (list (string * scalar)) :=
  filter (λ row, P (get name row)) rows.

(** Rows with equal [name] keep the relative order they have in [src]. *)
Definition stable (name : string) (src out : DataFrame) : Prop :=
  ∀ k, rows_with name (same_key k) (to_dict out)
         `sublist_of` rows_with name (same_key k) (to_dict src).

(** Every column is as long as the index: what [read_csv] builds. *)
Definition well_formed (df : DataFrame) : Prop :=
  Forall (λ c, length (values c.2) = len df) (data df).

(** The ranking branches of [_top_rows]: the column it ranks by and
    whether the sort is ascending. *)
Inductive ranks_by (df : DataFrame) (m : ModelChoice) : string → bool → Prop :=
| by_rank :
    "rank" ∈ columns df → ranks_by df m "rank" true
| by_prob :
    "rank" ∉ columns df → m ∈ [logistic_regression; xgboost] →
    ranks_by df m "prob_first_time_investor" false
| by_risk :
    "rank" ∉ columns df → m = weibull_tte_rnn →
    ranks_by df m "risk_6m" false.

(** Where [head(n)] stops in a frame of [m] rows. *)
Definition stop (n : Z) (m : nat) : nat :=
  if (0 <=? n)%Z then Z.to_nat n else m - Z.to_nat (- n).

(** [s] occurs in [t]. *)
Definition contains (t s : string) : Prop := ∃ a b, t = a +:+ s +:+ b.

Fixpoint prefixb (s t : string) : bool :=
  match s, t with
  | EmptyString, _ => true
  | String c s', String d t' => bool_decide (c = d) && prefixb s' t'
  | String _ _, EmptyString => false
  end.

(** The test [s in t]. *)
Fixpoint infixb (s t : string) : bool :=
  prefixb s t || match t with
                 | EmptyString => false
                 | String _ t' => infixb s t'
                 end.

(** What a successful answer carries: its rows, and how many. *)
Definition returned_rows (r : Response) : nat :=
  match r with
  | JSONResponse body => length (results body)
  | PlainTextResponse body _ _ => length body.2
  end.
End spec.

(** ** Tables and directories used as examples *)
Module examples.
Import pandas.

Definition ints (l : list Z) : Series := Numeric ((λ z, Some (inject_Z z)) <$> l).

(** Eighteen customers sharing one rank. *)
Definition ties18 : DataFrame :=
  {| data := [("customer_id", ints (seqZ 0 18));
              ("rank", ints (replicate 18 1%Z))];
     index := seq 0 18 |}.

(** Seventeen customers sharing the rank [gold]. *)
Definition gold17 : DataFrame :=
  {| data := [("customer_id", ints (seqZ 0 17));
              ("rank", Object (replicate 17 (Some "gold")))];
     index := seq 0 17 |}.

(** Three customers with three different risks. *)
Definition risks3 : DataFrame :=
  {| data := [("customer_id", ints [1; 2; 3]%Z);
              ("risk_6m", Numeric [Some (2 # 10); Some (7 # 10); Some (5 # 10)]%Q)];
     index := seq 0 3 |}.

(** A rank column whose first cell is empty. *)
Definition null_rank : DataFrame :=
  {| data := [("customer_id", ints [1; 2]%Z);
              ("rank", Numeric [None; Some 1%Q])];
     index := seq 0 2 |}.

(** A table with neither a rank nor a score column. *)
Definition no_score : DataFrame :=
  {| data := [("customer_id", ints [1; 2; 3]%Z)]; index := seq 0 3 |}.

(** Three scored customers, two of them tied. *)
Definition scores3 : DataFrame :=
  {| data := [("customer_id", ints [1; 2; 3]%Z);
              ("prob_first_time_investor",
               Numeric [Some (9 # 10); Some (9 # 10); Some (5 # 10)]%Q)];
     index := seq 0 3 |}.

(** A header line and no row. *)
Definition header_only : DataFrame :=
  {| data := [("customer_id", Numeric []); ("rank", Numeric [])];
     index := [] |}.

Definition fs_scores : gmap string file :=
  {[ "xgb_predictions_all.csv" := Table scores3 ]}.

Definition fs_header_only : gmap string file :=
  {[ "xgb_predictions_all.csv" := Table header_only ]}.

Definition fs_malformed : gmap string file :=
  {[ "xgb_predictions_all.csv" := Malformed "Error tokenizing data" ]}.

Definition fs_risks : gmap string file :=
  {[ "weibull_tte_predictions_all.csv" := Table risks3 ]}.

Definition fs_no_score : gmap string file :=
  {[ "xgb_predictions_all.csv" := Table no_score ]}.
End examples.


(** ** Notions the further properties are stated with *)
Module spec_more.
Import pandas spec.

(** [x] ranks at least as high as [y]: [y] is missing, or both are
    present and in the order of the sort. *)
Definition ahead (asc : bool) (x y : scalar) : Prop :=
  isna y ∨ (if asc then scalar_le x y else scalar_le y x).

(** The cells of a row, without the column names. *)
Definition cells_of (row : list (string * scalar)) : list scalar := row.*2.

(** Some cell of the rows is missing. *)
Definition has_missing (rows : list (list (string * scalar))) : Prop :=
  ∃ row name, row ∈ rows ∧ (name, NaN) ∈ row.

(** [x] and [y] stand level in the order [R]. *)
Definition tied {A} (R : relation A) (x y : A) : Prop := R x y ∧ R y x.

(** Two cells hold the same key: both are missing, or they are equal
    values. *)
Definition same_rank (x y : scalar) : Prop :=
  (isna x ∧ isna y) ∨ same_key x y.

(** No two present cells of a column hold the same key. *)
Definition distinct_keys (l : list scalar) : Prop :=
  ∀ i j x y, i < j → l !! i = Some x → l !! j = Some y → ¬ same_key x y.
End spec_more.

(** ** Further example tables *)
Module examples_more.
Import pandas examples.

(** The rows of [scores3], last row first. *)
Definition scores3_reordered : DataFrame :=
  {| data := [("customer_id", ints [3; 2; 1]%Z);
              ("prob_first_time_investor",
               Numeric [Some (5 # 10); Some (9 # 10); Some (9 # 10)]%Q)];
     index := seq 0 3 |}.
End examples_more.
(** * General list facts *)
Module list_facts.
Lemma filter_ext_elem {A} (P Q : A → Prop) `{!∀ x, Decision (P x)}
    `{!∀ x, Decision (Q x)} (l : list A) :
  (∀ x, x ∈ l → P x ↔ Q x) → filter P l = filter Q l.
Proof.
  induction l as [|x l IH]; intros Hext; [done|].
  rewrite !filter_cons.
  rewrite IH by (intros; apply Hext; by right).
  destruct (decide (P x)) as [HP|HP], (decide (Q x)) as [HQ|HQ]; try done.
  - apply Hext in HP; [done|by left].
  - apply Hext in HQ; [done|by left].
Qed.

Lemma StronglySorted_rev {A} (R : relation A) (l : list A) :
  StronglySorted R l → StronglySorted (flip R) (reverse l).
Proof.
  induction 1 as [|x l Hl IH Hx]; [constructor|].
  rewrite reverse_cons. apply StronglySorted_app_2; [|done|repeat constructor].
  intros y z Hy ->%list_elem_of_singleton. unfold flip.
  rewrite elem_of_reverse in Hy. by eapply Forall_forall in Hx.
Qed.

Lemma StronglySorted_lookup {A} (R : relation A) (l : list A) i j x y :
  StronglySorted R l → i < j → l !! i = Some x → l !! j = Some y → R x y.
Proof.
  intros Hl. revert i j. induction Hl as [|z l Hl IH Hz]; intros i j Hij Hi Hj.
  - by rewrite lookup_nil in Hi.
  - destruct j as [|j]; [lia|]. destruct i as [|i]; simpl in *.
    + simplify_eq. rewrite Forall_forall in Hz. apply Hz.
      by eapply list_elem_of_lookup_2.
    + apply (IH i j); [lia|done..].
Qed.

Lemma StronglySorted_take {A} (R : relation A) (l : list A) n :
  StronglySorted R l → StronglySorted R (take n l).
Proof.
  intros Hl. rewrite <-(take_drop n l) in Hl.
  by apply StronglySorted_app_1_l in Hl.
Qed.

Lemma fmap_lookup_total_seq {A} `{!Inhabited A} (l : list A) :
  (l !!!.) <$> seq 0 (length l) = l.
Proof.
  apply list_eq. intros i. rewrite list_lookup_fmap.
  destruct (decide (i < length l)) as [Hi|Hi].
  - rewrite lookup_seq_lt by done. simpl.
    by rewrite list_lookup_lookup_total_lt.
  - rewrite lookup_seq_ge, lookup_ge_None_2 by lia. done.
Qed.

Lemma fmap_lookup_total_take {A} `{!Inhabited A} (l : list A) n :
  n ≤ length l → (l !!!.) <$> seq 0 n = take n l.
Proof.
  intros Hn. rewrite <-(fmap_lookup_total_seq (take n l)).
  rewrite length_take, Nat.min_l by done.
  apply list_fmap_ext. intros i x [-> ?]%lookup_seq.
  by rewrite lookup_total_take_lt.
Qed.

Lemma sublist_filter_mono {A} (P : A → Prop) `{!∀ x, Decision (P x)}
    (l1 l2 : list A) :
  l1 `sublist_of` l2 → filter P l1 `sublist_of` filter P l2.
Proof.
  induction 1 as [|x l1 l2 Hl IH|x l1 l2 Hl IH]; [done|..];
    rewrite ?filter_cons; destruct (decide (P x)); try done.
  - by apply sublist_skip.
  - by apply sublist_cons.
Qed.

End list_facts.

(** * Properties of the index sort *)
Module npysort_facts.
Import npysort sortspec list_facts.

Section order.
Context {K : Type} `{!Inhabited K} (less : K → K → bool) `{!StrictWeak less}.
Variable v : list K.
Abbreviation lt := (npysort.lt less v).
Abbreviation le := (sortspec.le less v).
Abbreviation ins_rev := (sortspec.ins_rev less v).
Abbreviation split_at := (sortspec.split_at less v).
Abbreviation heap := (sortspec.heap less v).
Abbreviation heap_and_tail := (sortspec.heap_and_tail less v).

Lemma lt_irrefl i : lt i i = false.
Proof. unfold npysort.lt. apply less_irrefl. Qed.

Lemma lt_asym i j : lt i j = true → lt j i = false.
Proof.
  unfold npysort.lt. intros Hij. destruct (less (v !!! j) (v !!! i)) eqn:Hji; [|done].
  rewrite <-(less_irrefl (v !!! i)). symmetry. by eapply less_trans.
Qed.

Lemma lt_le i j : lt i j = true → le i j.
Proof. apply lt_asym. Qed.

Lemma le_refl i : le i i.
Proof. apply lt_irrefl. Qed.

Lemma le_trans i j k : le i j → le j k → le i k.
Proof. unfold sortspec.le, npysort.lt. intros. by eapply less_neg_trans. Qed.

(** ** Swaps *)
Lemma swap_length a i j : length (swap a i j) = length a.
Proof. unfold swap. by rewrite !length_insert. Qed.

Lemma swap_lookup_l a i j :
  i < length a → j < length a → swap a i j !!! i = a !!! j.
Proof.
  intros Hi Hj. unfold swap.
  rewrite list_lookup_total_insert_eq; [done|by rewrite length_insert].
Qed.

Lemma swap_lookup_r a i j :
  i < length a → j < length a → swap a i j !!! j = a !!! i.
Proof.
  intros Hi Hj. unfold swap. destruct (decide (i = j)) as [->|Hne].
  - rewrite list_lookup_total_insert_eq; [done|by rewrite length_insert].
  - rewrite list_lookup_total_insert_ne by done.
    by rewrite list_lookup_total_insert_eq.
Qed.

Lemma swap_lookup_ne a i j k :
  k ≠ i → k ≠ j → swap a i j !!! k = a !!! k.
Proof.
  intros Hi Hj. unfold swap.
  by rewrite !list_lookup_total_insert_ne.
Qed.

Lemma insert_lookup_total_id (a : list nat) i : <[i := a !!! i]> a = a.
Proof.
  destruct (decide (i < length a)) as [Hi|Hi].
  - apply list_insert_id. by apply list_lookup_lookup_total_lt.
  - apply list_insert_ge. lia.
Qed.

Lemma swap_perm a i j :
  i < length a → j < length a → swap a i j ≡ₚ a.
Proof.
  intros Hi Hj. unfold swap.
  apply Permutation_insert_swap; by apply list_lookup_lookup_total_lt.
Qed.

(** ** Insertion sort *)
Lemma shift_spec l h t x :
  shift less v (l ++ h :: t) x (length l)
  = reverse (ins_rev x (reverse l)) ++ t.
Proof.
  revert h t. induction l as [|y l IH] using rev_ind; intros h t.
  - done.
  - rewrite length_app, Nat.add_1_r. simpl.
    rewrite <-(assoc_L (++)). simpl.
    rewrite list_lookup_total_middle by done.
    rewrite reverse_snoc. simpl.
    destruct (lt x y).
    + rewrite (insert_app_r_alt l) by lia.
      replace (S (length l) - length l) with 1 by lia. simpl.
      rewrite IH, reverse_cons, <-(assoc_L (++)). done.
    + rewrite (insert_app_r_alt l) by lia.
      replace (S (length l) - length l) with 1 by lia. simpl.
      rewrite !reverse_cons, reverse_involutive, <-!(assoc_L (++)). done.
Qed.

Lemma ins_rev_length x r : length (ins_rev x r) = S (length r).
Proof. induction r as [|y r IH]; simpl; [done|]. destruct (lt x y); simpl; lia. Qed.

Lemma insertion_loop_spec pre post :
  foldl (λ a pi, shift less v a (a !!! pi) pi) (pre ++ post)
        (seq (length pre) (length post))
  = reverse (foldl (λ r x, ins_rev x r) (reverse pre) post).
Proof.
  revert pre. induction post as [|x post IH]; intros pre.
  - simpl. by rewrite reverse_involutive, (right_id_L [] (++)).
  - simpl. rewrite list_lookup_total_middle by done.
    rewrite shift_spec.
    set (pre' := reverse (ins_rev x (reverse pre))).
    assert (Hlen : length pre' = S (length pre)).
    { unfold pre'. by rewrite length_reverse, ins_rev_length, length_reverse. }
    rewrite <-Hlen, IH. unfold pre'. by rewrite reverse_involutive.
Qed.

(** The array code computes the list insertion sort. *)
Lemma insertion_sort_spec a :
  insertion_sort less v a = reverse (foldl (λ r x, ins_rev x r) [] a).
Proof.
  unfold insertion_sort. destruct a as [|x a]; [done|].
  simpl. rewrite Nat.sub_0_r.
  exact (insertion_loop_spec [x] a).
Qed.

Lemma ins_rev_perm x r : ins_rev x r ≡ₚ x :: r.
Proof.
  induction r as [|y r IH]; simpl; [done|].
  destruct (lt x y); [|done]. by rewrite IH, Permutation_swap.
Qed.

Lemma foldl_ins_rev_perm r a :
  foldl (λ r x, ins_rev x r) r a ≡ₚ a ++ r.
Proof.
  revert r. induction a as [|x a IH]; intros r; simpl; [done|].
  by rewrite IH, ins_rev_perm, Permutation_middle.
Qed.

Lemma insertion_sort_perm a : insertion_sort less v a ≡ₚ a.
Proof.
  by rewrite insertion_sort_spec, reverse_Permutation, foldl_ins_rev_perm,
    (right_id_L [] (++)).
Qed.

(** [ins_rev] keeps a run sorted for any order [R] (read right to left)
    that agrees with the comparisons made on the way. *)
Lemma ins_rev_sorted (R : relation nat) x r :
  Transitive R →
  (∀ y, y ∈ r → lt x y = true → R y x) →
  (∀ y, y ∈ r → lt x y = false → R x y) →
  StronglySorted R r → StronglySorted R (ins_rev x r).
Proof.
  intros HR Hlt Hge Hr. induction Hr as [|y r Hr IH Hy]; simpl.
  - repeat constructor.
  - destruct (lt x y) eqn:Hxy.
    + constructor.
      * apply IH; intros z Hz ?; [apply Hlt|apply Hge]; (by right) || done.
      * rewrite ins_rev_perm. constructor; [|done]. apply Hlt; (by left) || done.
    + assert (R x y) by (apply Hge; (by left) || done).
      constructor; [by constructor|]. constructor; [done|].
      eapply Forall_impl; [exact Hy|]. intros z Hz. by trans y.
Qed.

Lemma foldl_ins_rev_sorted (R : relation nat) r a :
  Transitive R →
  (∀ x y, lt x y = true → R y x) →
  (∀ a1 x a2 y, a = a1 ++ x :: a2 → y ∈ r ++ a1 → lt x y = false → R x y) →
  StronglySorted R r → StronglySorted R (foldl (λ r x, ins_rev x r) r a).
Proof.
  intros HR Hlt. revert r. induction a as [|x a IH]; intros r Hge Hr; simpl; [done|].
  apply IH.
  - intros a1 x' a2 y -> Hy. apply (Hge (x :: a1) x' a2); [done|].
    revert Hy. rewrite !elem_of_app, ins_rev_perm, !elem_of_cons. tauto.
  - apply ins_rev_sorted; [done|by auto|..|done].
    intros y Hy. apply (Hge [] x a); [done|]. by rewrite (right_id_L [] (++)).
Qed.

Lemma insertion_sort_sorted a : StronglySorted le (insertion_sort less v a).
Proof.
  rewrite insertion_sort_spec.
  apply (StronglySorted_rev (flip le)).
  apply foldl_ins_rev_sorted.
  - intros i j k ??. unfold flip in *. by eapply le_trans.
  - intros x y Hxy. unfold flip. by apply lt_le.
  - intros ????? Hy Hxy. by unfold flip, sortspec.le.
  - constructor.
Qed.

(** ** Partition *)
Lemma scan_up_spec fuel a vp p q :
  p ≤ q → lt (a !!! q) vp = false → q - p < fuel →
  let r := scan_up less v fuel a vp p in
  p ≤ r ≤ q ∧ lt (a !!! r) vp = false ∧ ∀ k, p ≤ k < r → lt (a !!! k) vp = true.
Proof.
  revert p. induction fuel as [|fuel IH]; intros p Hpq Hq Hfuel; [lia|].
  simpl. destruct (lt (a !!! p) vp) eqn:Hp.
  - assert (p ≠ q) by (intros ->; congruence).
    destruct (IH (S p)) as (Hr1 & Hr2 & Hr3); [lia|done|lia|].
    split; [lia|]. split; [done|].
    intros k Hk. destruct (decide (k = p)) as [->|]; [done|]. apply Hr3. lia.
  - split; [lia|]. split; [done|]. intros k Hk. lia.
Qed.

Lemma scan_down_spec fuel a vp p q :
  q ≤ p → lt vp (a !!! q) = false → p - q < fuel →
  let r := scan_down less v fuel a vp p in
  q ≤ r ≤ p ∧ lt vp (a !!! r) = false ∧ ∀ k, r < k ≤ p → lt vp (a !!! k) = true.
Proof.
  revert p. induction fuel as [|fuel IH]; intros p Hpq Hq Hfuel; [lia|].
  simpl. destruct (lt vp (a !!! p)) eqn:Hp.
  - assert (p ≠ q) by (intros ->; congruence).
    destruct (IH (p - 1)) as (Hr1 & Hr2 & Hr3); [lia|done|lia|].
    split; [lia|]. split; [done|].
    intros k Hk. destruct (decide (k = p)) as [->|]; [done|]. apply Hr3. lia.
  - split; [lia|]. split; [done|]. intros k Hk. lia.
Qed.

Lemma partition_loop_spec fuel a vp pi pj :
  pi < pj → pj < length a - 1 → pj - pi ≤ fuel →
  split_at a vp pi pj →
  ∀ a' pi', partition_loop less v fuel a vp pi pj = (a', pi') →
    a' ≡ₚ a ∧ length a' = length a ∧ pi < pi' ≤ pj ∧
    (∀ k, pj ≤ k → a' !!! k = a !!! k) ∧
    lt (a' !!! pi') vp = false ∧
    (∀ k, k < pi' → lt vp (a' !!! k) = false) ∧
    (∀ k, pi' < k < length a → lt (a' !!! k) vp = false).
Proof.
  revert a pi pj. induction fuel as [|fuel IH]; intros a pi pj Hlt Hpj Hfuel
    [Hlo Hhi] a' pi' Heq; [lia|].
  simpl in Heq.
  destruct (scan_up_spec (length a) a vp (S pi) pj) as (Hu1 & Hu2 & Hu3);
    [lia|apply Hhi; lia|lia|].
  destruct (scan_down_spec (length a) a vp (pj - 1) pi) as (Hd1 & Hd2 & Hd3);
    [lia|by apply Hlo|lia|].
  set (ui := scan_up less v (length a) a vp (S pi)) in *.
  set (dj := scan_down less v (length a) a vp (pj - 1)) in *.
  destruct (dj <=? ui) eqn:Hcmp.
  - apply Nat.leb_le in Hcmp. simplify_eq.
    split; [done|]. split; [done|]. split; [lia|]. split; [done|].
    split; [done|]. split.
    + intros k Hk. destruct (decide (k ≤ pi)); [by apply Hlo|].
      apply lt_asym, Hu3. lia.
    + intros k Hk. destruct (decide (pj ≤ k)); [apply Hhi; lia|].
      apply lt_asym, Hd3. lia.
  - apply Nat.leb_gt in Hcmp.
    destruct (IH (swap a ui dj) ui dj) with (a' := a') (pi' := pi')
      as (Hp & Hl & Hr & Hsame & Hpiv & Hlo' & Hhi');
      [lia|rewrite swap_length; lia|lia| |done|].
    { split.
      - intros k Hk. destruct (decide (k = ui)) as [->|].
        + rewrite swap_lookup_l by lia. done.
        + rewrite swap_lookup_ne by lia.
          destruct (decide (k ≤ pi)); [by apply Hlo|].
          apply lt_asym, Hu3. lia.
      - rewrite swap_length. intros k Hk. destruct (decide (k = dj)) as [->|].
        + rewrite swap_lookup_r by lia. done.
        + rewrite swap_lookup_ne by lia.
          destruct (decide (pj ≤ k)); [apply Hhi; lia|].
          apply lt_asym, Hd3. lia. }
    rewrite swap_length in *.
    split; [by rewrite Hp, swap_perm by lia|]. split; [done|]. split; [lia|].
    split; [|done].
    intros k Hk. rewrite Hsame by lia. apply swap_lookup_ne; lia.
Qed.

Lemma median3_spec a :
  2 ≤ length a - 1 →
  let a' := median3 less v a in
  let pr := length a - 1 in
  a' ≡ₚ a ∧ length a' = length a ∧
  le (a' !!! 0) (a' !!! (pr / 2)) ∧ le (a' !!! (pr / 2)) (a' !!! pr).
Proof.
  intros Hlen. unfold median3. cbv zeta.
  set (pr := length a - 1) in *. set (pm := pr / 2).
  assert (Hpm : 0 < pm < pr).
  { unfold pm. split; [apply Nat.div_str_pos; lia|apply Nat.div_lt; lia]. }
  set (a1 := if lt (a !!! pm) (a !!! 0) then swap a pm 0 else a).
  assert (H1 : a1 ≡ₚ a ∧ length a1 = length a ∧ le (a1 !!! 0) (a1 !!! pm)).
  { unfold a1. destruct (lt (a !!! pm) (a !!! 0)) eqn:Hc; [|done].
    split; [apply swap_perm; lia|].
    rewrite swap_length, swap_lookup_l, swap_lookup_r by lia.
    split; [done|]. by apply lt_le. }
  destruct H1 as (Hp1 & Hl1 & Hle1).
  set (a2 := if lt (a1 !!! pr) (a1 !!! pm) then swap a1 pr pm else a1).
  assert (H2 : a2 ≡ₚ a ∧ length a2 = length a ∧ le (a2 !!! pm) (a2 !!! pr) ∧
               le (a2 !!! 0) (a2 !!! pr)).
  { unfold a2. destruct (lt (a1 !!! pr) (a1 !!! pm)) eqn:Hc.
    - split; [etrans; [apply swap_perm; lia|done]|].
      rewrite swap_length, swap_lookup_l, swap_lookup_r,
        swap_lookup_ne by lia.
      split; [done|]. split; [by apply lt_le|]. done.
    - split; [done|]. split; [done|]. split; [done|]. by eapply le_trans. }
  destruct H2 as (Hp2 & Hl2 & Hle2 & Hle2').
  destruct (lt (a2 !!! pm) (a2 !!! 0)) eqn:Hc; [|done].
  split; [etrans; [apply swap_perm; lia|done]|].
  rewrite swap_length, swap_lookup_l, swap_lookup_r, swap_lookup_ne by lia.
  split; [done|]. split; [by apply lt_le|]. done.
Qed.

(** The result of [partition]: the pivot sits at [pi], nothing left of it is
    above it and nothing right of it is below it. *)
Lemma partition_spec a a' pi :
  2 ≤ length a - 1 →
  partition less v a = (a', pi) →
  a' ≡ₚ a ∧ length a' = length a ∧ pi < length a ∧
  (∀ k, k < pi → le (a' !!! k) (a' !!! pi)) ∧
  (∀ k, pi < k < length a → le (a' !!! pi) (a' !!! k)).
Proof.
  intros Hlen. unfold partition.
  destruct (median3_spec a Hlen) as (Hp & Hl & Hle1 & Hle2).
  set (m3 := median3 less v a) in *. cbv zeta in *.
  set (pr := length a - 1) in *. set (pm := pr / 2) in *.
  assert (Hpm : 0 < pm < pr).
  { unfold pm. split; [apply Nat.div_str_pos; lia|apply Nat.div_lt; lia]. }
  set (vp := m3 !!! pm) in *.
  set (a1 := swap m3 pm (pr - 1)).
  assert (Hp1 : a1 ≡ₚ a) by (etrans; [apply swap_perm; lia|done]).
  assert (Hl1 : length a1 = length a) by (unfold a1; by rewrite swap_length).
  assert (H0 : a1 !!! 0 = m3 !!! 0) by (apply swap_lookup_ne; lia).
  assert (Hr : a1 !!! pr = m3 !!! pr) by (apply swap_lookup_ne; lia).
  assert (Hv : a1 !!! (pr - 1) = vp) by (apply swap_lookup_r; lia).
  destruct (partition_loop less v (length a1) a1 vp 0 (pr - 1)) as [af pf] eqn:Hloop.
  intros [= <- <-].
  apply partition_loop_spec in Hloop
    as (Hpf & Hlf & Hrange & Hsame & Hpiv & Hlo & Hhi); [|lia..|].
  2:{ split.
      - intros k Hk. assert (k = 0) as -> by lia. by rewrite H0.
      - intros k Hk. rewrite Hl1 in Hk.
        destruct (decide (k = pr)) as [->|]; [by rewrite Hr|].
        assert (k = pr - 1) as -> by lia. rewrite Hv. apply lt_irrefl. }
  rewrite Hl1 in *.
  assert (Hvf : af !!! (pr - 1) = vp) by (by rewrite Hsame).
  split; [etrans; [apply swap_perm; lia|by etrans]|].
  rewrite swap_length. split; [lia|]. split; [lia|].
  rewrite swap_lookup_l by lia. rewrite Hvf. split.
  - intros k Hk. rewrite swap_lookup_ne by lia. by apply Hlo.
  - intros k Hk. destruct (decide (k = pr - 1)) as [->|].
    + by rewrite swap_lookup_r by lia.
    + rewrite swap_lookup_ne by lia. apply Hhi. lia.
Qed.

(** ** Heap sort *)
Lemma hset_length a k x : length (hset a k x) = length a.
Proof. apply length_insert. Qed.

Lemma hp_hset_eq a k x : 1 ≤ k ≤ length a → hp (hset a k x) k = x.
Proof. intros ?. unfold hp, hset. apply list_lookup_total_insert_eq. lia. Qed.

Lemma hp_hset_ne a k x j : 1 ≤ k → 1 ≤ j → j ≠ k → hp (hset a k x) j = hp a j.
Proof. intros ???. unfold hp, hset. apply list_lookup_total_insert_ne. lia. Qed.

Lemma hset_hset a k x y : hset (hset a k x) k y = hset a k y.
Proof. apply list_insert_insert_eq. Qed.

(** Moving the hole from [i] down to [j] exchanges two entries of the
    array in which the hole is filled. *)
Lemma hole_move_perm a tmp i j :
  1 ≤ i ≤ length a → 1 ≤ j ≤ length a → i ≠ j →
  hset (hset a i (hp a j)) j tmp ≡ₚ hset a i tmp.
Proof.
  intros Hi Hj Hij.
  rewrite <-(hset_hset a i tmp (hp a j)).
  unfold hset. apply Permutation_insert_swap.
  - apply list_lookup_insert_eq. lia.
  - rewrite list_lookup_insert_ne by lia.
    apply list_lookup_lookup_total_lt. lia.
Qed.

Lemma sift_spec fuel a tmp l n i :
  1 ≤ l → l ≤ i → i ≤ n → n ≤ length a → n + 1 - i ≤ fuel →
  heap (hset a i tmp) l n i →
  (∀ p c, l ≤ p → i = p + p ∨ i = p + p + 1 → c = i + i ∨ c = i + i + 1 →
     c ≤ n → le (hp a c) (hp a p)) →
  let r := sift less v fuel a tmp n i (i + i) in
  r ≡ₚ hset a i tmp ∧ length r = length a ∧ heap r l n 0 ∧
  (∀ k, n < k → hp r k = hp a k).
Proof.
  revert a i. induction fuel as [|fuel IH];
    intros a i Hl Hli Hin Hn Hfuel Hheap Hgrand; [lia|].
  assert (Hfill : ∀ k, 1 ≤ k → k ≠ i → hp (hset a i tmp) k = hp a k).
  { intros. apply hp_hset_ne; lia. }
  assert (Hfill_i : hp (hset a i tmp) i = tmp) by (apply hp_hset_eq; lia).
  (* the array with the hole filled is a heap once [tmp] dominates the
     children of [i] *)
  assert (Hstop : (∀ c, c = i + i ∨ c = i + i + 1 → c ≤ n →
                     lt tmp (hp a c) = false) →
                  hset a i tmp ≡ₚ hset a i tmp ∧
                  length (hset a i tmp) = length a ∧
                  heap (hset a i tmp) l n 0 ∧
                  (∀ k, n < k → hp (hset a i tmp) k = hp a k)).
  { intros Hdom. split; [done|]. split; [apply hset_length|]. split.
    - intros k c Hk _ Hc Hcn. destruct (decide (k = i)) as [->|Hki].
      + rewrite Hfill_i, Hfill by lia. by apply Hdom.
      + by apply Hheap.
    - intros k Hk. apply Hfill; lia. }
  simpl. destruct (n <? i + i) eqn:Hnj.
  { apply Nat.ltb_lt in Hnj. apply Hstop. intros; lia. }
  apply Nat.ltb_ge in Hnj.
  set (j := if (i + i <? n) && lt (hp a (i + i)) (hp a (i + i + 1))
            then i + i + 1 else i + i).
  assert (Hj : (j = i + i ∨ j = i + i + 1) ∧ j ≤ n ∧
               ∀ c, c = i + i ∨ c = i + i + 1 → c ≤ n → le (hp a c) (hp a j)).
  { unfold j. destruct (i + i <? n) eqn:Hlt; simpl.
    - apply Nat.ltb_lt in Hlt.
      destruct (lt (hp a (i + i)) (hp a (i + i + 1))) eqn:Hc.
      + split; [by right|]. split; [lia|].
        intros c [->| ->] _; [by apply lt_le|apply le_refl].
      + split; [by left|]. split; [lia|].
        intros c [->| ->] _; [apply le_refl|done].
    - apply Nat.ltb_ge in Hlt. split; [by left|]. split; [lia|].
      intros c [->| ->] ?; [apply le_refl|lia]. }
  destruct Hj as (Hjc & Hjn & Hjmax).
  destruct (lt tmp (hp a j)) eqn:Hcmp.
  - (* the larger child moves up, the hole moves down *)
    assert (j + j = j + j) as _ by done.
    destruct (IH (hset a i (hp a j)) j) as (Hp & Hlen & Hh & Hout);
      [lia|lia|lia|rewrite hset_length; lia|lia|..].
    + intros k c Hk Hkj Hc Hcn.
      assert (Hfill' : ∀ x, 1 ≤ x → x ≠ i → x ≠ j →
                hp (hset (hset a i (hp a j)) j tmp) x = hp a x).
      { intros. rewrite !hp_hset_ne by lia. done. }
      assert (Hfj : hp (hset (hset a i (hp a j)) j tmp) j = tmp).
      { apply hp_hset_eq. rewrite hset_length. lia. }
      assert (Hfi : hp (hset (hset a i (hp a j)) j tmp) i = hp a j).
      { rewrite hp_hset_ne by lia. apply hp_hset_eq. lia. }
      destruct (decide (k = i)) as [->|Hki].
      * rewrite Hfi. destruct (decide (c = j)) as [->|Hcj].
        -- rewrite Hfj. by apply lt_le.
        -- rewrite Hfill' by lia. by apply Hjmax.
      * rewrite (Hfill' k) by lia.
        destruct (decide (c = i)) as [->|Hci].
        -- rewrite Hfi. by apply (Hgrand k j).
        -- assert (c ≠ j) by lia. rewrite Hfill' by lia.
           specialize (Hheap k c Hk Hki Hc Hcn).
           by rewrite !Hfill in Hheap by lia.
    + intros p c Hp Hpj Hc Hcn. assert (p = i) as -> by lia.
      rewrite hp_hset_eq by lia. rewrite hp_hset_ne by lia.
      specialize (Hheap j c ltac:(lia) ltac:(lia) Hc Hcn).
      by rewrite !Hfill in Hheap by lia.
    + rewrite hset_length in Hlen.
      split; [by rewrite Hp, hole_move_perm by lia|]. split; [done|].
      split; [done|]. intros k Hk. rewrite Hout by done.
      apply hp_hset_ne; lia.
  - apply Hstop. intros c Hc Hcn.
    specialize (Hjmax c Hc Hcn). by eapply le_trans.
Qed.

Lemma heap_leaves a n : heap a (n / 2 + 1) n 0.
Proof.
  intros k c Hk _ Hc Hcn.
  pose proof (Nat.div_mod_eq n 2). pose proof (Nat.mod_upper_bound n 2). lia.
Qed.

Lemma heapify_loop m a n :
  m ≤ n → n ≤ length a → heap a (m + 1) n 0 →
  let r := foldl (λ a l, sift less v n a (hp a l) n l (l + l)) a
                 (reverse (seq 1 m)) in
  r ≡ₚ a ∧ length r = length a ∧ heap r 1 n 0.
Proof.
  revert a. induction m as [|m IH]; intros a Hm Hn Hheap.
  - simpl. done.
  - rewrite seq_S, reverse_snoc. simpl.
    replace (1 + m) with (S m) by lia.
    assert (Hid : hset a (S m) (hp a (S m)) = a).
    { unfold hset, hp. apply insert_lookup_total_id. }
    destruct (sift_spec n a (hp a (S m)) (S m) n (S m))
      as (Hp & Hlen & Hh & _); [lia..| | |].
    + rewrite Hid. intros k c Hk Hkm. apply Hheap; lia.
    + intros p c Hp Hpi. lia.
    + rewrite Hid in Hp.
      destruct (IH (sift less v n a (hp a (S m)) n (S m) (S m + S m)))
        as (Hp' & Hlen' & Hh'); [lia|lia| |].
      { intros k c Hk _. apply Hh; lia. }
      exact (conj (transitivity Hp' Hp) (conj (eq_trans Hlen' Hlen) Hh')).
Qed.

Lemma heapify_spec a :
  let r := heapify less v a (length a) in
  r ≡ₚ a ∧ length r = length a ∧ heap r 1 (length a) 0.
Proof.
  unfold heapify. apply heapify_loop; [|done|apply heap_leaves].
  pose proof (Nat.div_mod_eq (length a) 2). lia.
Qed.

(** The root of a heap is its largest entry. *)
Lemma heap_root_max a n k : heap a 1 n 0 → 1 ≤ k ≤ n → le (hp a k) (hp a 1).
Proof.
  intros Hheap. induction k as [k IH] using lt_wf_ind. intros Hk.
  destruct (decide (k = 1)) as [->|]; [apply le_refl|].
  pose proof (Nat.div_mod_eq k 2). pose proof (Nat.mod_upper_bound k 2).
  eapply le_trans; [|apply (IH (k / 2)); lia].
  apply Hheap; lia.
Qed.

Lemma drop_beyond (r a : list nat) n :
  length r = length a → (∀ k, n < k → hp r k = hp a k) → drop n r = drop n a.
Proof.
  intros Hlen Hout. apply list_eq. intros i. rewrite !lookup_drop.
  destruct (decide (n + i < length a)) as [Hi|Hi].
  - rewrite !list_lookup_lookup_total_lt by lia. f_equal.
    specialize (Hout (S (n + i)) ltac:(lia)). unfold hp in Hout.
    by rewrite Nat.sub_1_r in Hout.
  - rewrite !lookup_ge_None_2 by lia. done.
Qed.

Lemma take_perm_of_drop (r a : list nat) n :
  r ≡ₚ a → drop n r = drop n a → take n r ≡ₚ take n a.
Proof.
  intros Hp Hd. apply (Permutation_app_inv_r (drop n r)).
  rewrite take_drop, Hd, take_drop. done.
Qed.

Lemma sortdown_step a s :
  2 ≤ s ≤ length a → heap_and_tail a s →
  let r := sift less v s (hset a s (hp a 1)) (hp a s) (s - 1) 1 2 in
  r ≡ₚ a ∧ length r = length a ∧ heap_and_tail r (s - 1).
Proof.
  intros Hs (Hheap & Hsorted & Hdom).
  set (a1 := hset a s (hp a 1)). set (tmp := hp a s).
  assert (Hl1 : length a1 = length a) by apply hset_length.
  assert (HV : ∀ k, 1 ≤ k → k ≠ 1 → k ≠ s → hp (hset a1 1 tmp) k = hp a k).
  { intros. unfold a1. by rewrite !hp_hset_ne by lia. }
  destruct (sift_spec s a1 tmp 1 (s - 1) 1) as (Hp & Hlen & Hh & Hout);
    [lia..| | |].
  { intros k c Hk Hk1 Hc Hcn. rewrite !HV by lia. apply Hheap; lia. }
  { intros p c Hp Hp1. lia. }
  change (1 + 1) with 2 in *.
  set (r := sift less v s a1 tmp (s - 1) 1 2) in *.
  assert (HVp : hset a1 1 tmp ≡ₚ a).
  { unfold a1, tmp, hset, hp. apply Permutation_insert_swap;
      apply list_lookup_lookup_total_lt; lia. }
  assert (Hdrop : drop (s - 1) r = hp a 1 :: drop s a).
  { rewrite (drop_beyond r a1) by (done || lia).
    unfold a1, hset. rewrite drop_insert_ge by lia.
    rewrite Nat.sub_diag.
    rewrite (drop_S a (hp a s) (s - 1)).
    2:{ unfold hp. apply list_lookup_lookup_total_lt. lia. }
    simpl. by replace (S (s - 1)) with s by lia. }
  assert (Htake : ∀ x, x ∈ take (s - 1) r → x ∈ take s a).
  { intros x Hx.
    assert (Hpre : take (s - 1) r ≡ₚ take (s - 1) (hset a1 1 tmp)).
    { apply take_perm_of_drop; [done|].
      rewrite Hdrop. unfold hset at 1. rewrite drop_insert_lt by lia.
      unfold a1, hset. rewrite drop_insert_ge by lia.
      rewrite Nat.sub_diag.
      rewrite (drop_S a (hp a s) (s - 1)).
      2:{ unfold hp. apply list_lookup_lookup_total_lt. lia. }
      simpl. by replace (S (s - 1)) with s by lia. }
    rewrite Hpre in Hx.
    apply list_elem_of_lookup in Hx as [i Hi].
    apply lookup_take_Some in Hi as [Hi His].
    apply list_elem_of_lookup.
    destruct (decide (i = 0)) as [->|].
    - exists (s - 1). rewrite lookup_take_lt by lia.
      unfold hset in Hi. rewrite list_lookup_insert_eq in Hi
        by (rewrite Hl1; lia). simplify_eq.
      unfold hp. apply list_lookup_lookup_total_lt. lia.
    - exists i. rewrite lookup_take_lt by lia.
      unfold a1, hset in Hi. by rewrite !list_lookup_insert_ne in Hi by lia. }
  assert (Hroot : hp a 1 ∈ take s a).
  { apply list_elem_of_lookup. exists 0. rewrite lookup_take_lt by lia.
    unfold hp. apply list_lookup_lookup_total_lt. lia. }
  split; [by etrans|]. split; [lia|]. split; [done|]. split.
  - rewrite Hdrop. constructor; [done|].
    apply Forall_forall. intros y Hy. by apply Hdom.
  - rewrite Hdrop. intros x y Hx%Htake [->|Hy]%elem_of_cons.
    + apply list_elem_of_lookup in Hx as [i Hi].
      apply lookup_take_Some in Hi as [Hi His].
      apply list_lookup_total_correct in Hi as <-.
      replace i with (S i - 1) by lia. apply (heap_root_max a s (S i)); [done|lia].
    + by apply Hdom.
Qed.

Lemma sortdown_loop m a :
  S m ≤ length a → heap_and_tail a (S m) →
  let r := foldl (λ a n, sift less v n (hset a n (hp a 1)) (hp a n) (n - 1) 1 2)
                 a (reverse (seq 2 m)) in
  r ≡ₚ a ∧ length r = length a ∧ heap_and_tail r 1.
Proof.
  revert a. induction m as [|m IH]; intros a Hm Hinv; [done|].
  rewrite seq_S, reverse_snoc.
  destruct (sortdown_step a (2 + m)) as (Hp & Hlen & Hinv'); [lia|done|].
  cbv zeta in *.
  set (r1 := sift less v (2 + m) _ _ _ 1 2) in *.
  replace (2 + m - 1) with (S m) in Hinv' by lia.
  destruct (IH r1 ltac:(lia) Hinv') as (Hp' & Hlen' & Hinv'').
  exact (conj (transitivity Hp' Hp) (conj (eq_trans Hlen' Hlen) Hinv'')).
Qed.

Lemma aheapsort_spec a :
  aheapsort less v a ≡ₚ a ∧ StronglySorted le (aheapsort less v a).
Proof.
  unfold aheapsort. destruct (heapify_spec a) as (Hp & Hlen & Hheap).
  set (h := heapify less v a (length a)) in *. unfold sortdown.
  destruct (decide (length a = 0)) as [Hz|Hnz].
  { rewrite Hz. simpl. destruct h; [|simpl in *; lia].
    destruct a; [|done]. split; [done|constructor]. }
  destruct (sortdown_loop (length a - 1) h) as (Hp' & Hlen' & Hh & Hs & Hdom).
  { lia. }
  { replace (S (length a - 1)) with (length a) by lia.
    split; [done|]. rewrite drop_ge by lia. split; [constructor|].
    intros x y _ Hy. by apply elem_of_nil in Hy. }
  split; [by etrans|].
  rewrite <-(take_drop 1). apply StronglySorted_app_2; [done| |done].
  destruct (foldl _ _ _) as [|x r]; [constructor|].
  simpl. rewrite take_0. repeat constructor.
Qed.

(** ** The introsort loop *)
Lemma aquicksort_run_spec fuel popped cdepth a :
  length a < fuel →
  aquicksort_run less v fuel popped cdepth a ≡ₚ a ∧
  StronglySorted le (aquicksort_run less v fuel popped cdepth a).
Proof.
  revert popped cdepth a. induction fuel as [|fuel IH];
    intros popped cdepth a Hfuel; [lia|].
  simpl. destruct (popped && (cdepth <? 0)%Z); [apply aheapsort_spec|].
  destruct (SMALL_QUICKSORT <? length a - 1) eqn:Hbig.
  2:{ split; [apply insertion_sort_perm|apply insertion_sort_sorted]. }
  apply Nat.ltb_lt in Hbig. unfold SMALL_QUICKSORT in Hbig.
  destruct (partition less v a) as [a' pi] eqn:Hpart.
  apply partition_spec in Hpart as (Hp & Hlen & Hpi & Hlo & Hhi); [|lia].
  set (lo := take pi a'). set (hi := drop (S pi) a').
  assert (Hsplit : a' = lo ++ a' !!! pi :: hi).
  { symmetry. apply take_drop_middle, list_lookup_lookup_total_lt. lia. }
  assert (Hllo : length lo = pi) by (unfold lo; rewrite length_take; lia).
  assert (Hlhi : length hi < length a) by (unfold hi; rewrite length_drop; lia).
  set (b1 := negb (pi <? length a' - 1 - pi)).
  set (b2 := pi <? length a' - 1 - pi).
  destruct (IH b1 (cdepth - 1)%Z lo) as (Hp1 & Hs1); [lia|].
  destruct (IH b2 (cdepth - 1)%Z hi) as (Hp2 & Hs2); [lia|].
  split.
  - rewrite Hp1, Hp2, <-Hsplit. done.
  - assert (Hinlo : ∀ x, x ∈ lo → le x (a' !!! pi)).
    { intros x [k Hk]%list_elem_of_lookup.
      apply lookup_take_Some in Hk as [Hk Hkpi].
      apply list_lookup_total_correct in Hk as <-. by apply Hlo. }
    assert (Hinhi : ∀ y, y ∈ hi → le (a' !!! pi) y).
    { intros y [k Hk]%list_elem_of_lookup. unfold hi in Hk.
      rewrite lookup_drop in Hk.
      pose proof (lookup_lt_Some _ _ _ Hk).
      apply list_lookup_total_correct in Hk as <-. apply Hhi. lia. }
    apply StronglySorted_app_2; [|done|].
    + intros x y Hx. rewrite Hp1 in Hx.
      intros [->|Hy]%elem_of_cons; [by apply Hinlo|].
      rewrite Hp2 in Hy. eapply le_trans; [by apply Hinlo|by apply Hinhi].
    + constructor; [done|]. apply Forall_forall. intros y Hy.
      rewrite Hp2 in Hy. by apply Hinhi.
Qed.

Lemma aquicksort_perm a : aquicksort less v a ≡ₚ a.
Proof. unfold aquicksort. apply aquicksort_run_spec. lia. Qed.

Lemma aquicksort_sorted a : StronglySorted le (aquicksort less v a).
Proof. unfold aquicksort. apply aquicksort_run_spec. lia. Qed.

(** ** [argsort] *)
Lemma argsort_perm : argsort less v ≡ₚ seq 0 (length v).
Proof. apply aquicksort_perm. Qed.

Lemma argsort_bound p : p ∈ argsort less v → p < length v.
Proof. rewrite argsort_perm, elem_of_seq. lia. Qed.

(** The keys read through the result never go down. *)
Lemma argsort_sorted :
  StronglySorted (λ x y, less y x = false) ((v !!!.) <$> argsort less v).
Proof.
  eapply StronglySorted_fmap; [|apply aquicksort_sorted]. done.
Qed.

End order.
End npysort_facts.

(** * Properties of the pandas layer *)
Module pandas_facts.
Import npysort sortspec list_facts npysort_facts pandas.

(** ** The two dtypes are strict weak orders *)
Lemma Qltb_true x y : Qltb x y = true ↔ (x < y)%Q.
Proof. unfold Qltb. rewrite Qlt_alt. by destruct (x ?= y)%Q. Qed.

Lemma Qltb_false x y : Qltb x y = false ↔ (y <= x)%Q.
Proof.
  rewrite <-not_true_iff_false, Qltb_true.
  split; [apply Qnot_lt_le|apply Qle_not_lt].
Qed.

#[global] Instance Qltb_strict_weak : StrictWeak Qltb.
Proof.
  split.
  - intros x. apply Qltb_false, Qle_refl.
  - intros x y z. rewrite !Qltb_true. apply Qlt_trans.
  - intros x y z. rewrite !Qltb_false. intros ??. by eapply Qle_trans.
Qed.

#[global] Instance string_ltb_strict_weak : StrictWeak String.ltb.
Proof.
  assert (Hspec : ∀ x y, String.ltb x y = true ↔ String_as_OT.lt x y).
  { intros x y. unfold String.ltb. rewrite <-String_as_OT.cmp_lt.
    unfold String_as_OT.cmp. by destruct (String.compare x y). }
  assert (Hirr : ∀ x, String.ltb x x = false).
  { intros x. apply not_true_iff_false. rewrite Hspec.
    intros H. by apply String_as_OT.lt_not_eq in H. }
  assert (Htot : ∀ x y, String.ltb x y = false → x = y ∨ String.ltb y x = true).
  { intros x y. unfold String.ltb. rewrite (String.compare_antisym y x).
    destruct (String.compare x y) eqn:Hc; simpl; [|done|by right].
    left. by apply String.compare_eq_iff. }
  split; [done| |].
  - intros x y z. rewrite !Hspec. apply String_as_OT.lt_trans.
  - intros x y z Hxy Hyz. apply not_true_iff_false. intros Hxz.
    destruct (Htot _ _ Hxy) as [->|Hyx]; [congruence|].
    rewrite Hspec in Hyx, Hxz.
    pose proof (String_as_OT.lt_trans _ _ _ Hyx Hxz) as Hc.
    apply Hspec in Hc. congruence.
Qed.

(** ** [nargsort] on the values of one dtype *)
Section nargsort_facts.
Context {K : Type} `{!Inhabited K} (less : K → K → bool) `{!StrictWeak less}.
Implicit Types items : list (option K).

(** [idx[~mask]] and [np.nonzero(mask)[0]] *)
Abbreviation non_nan_idx items :=
  (filter (λ i, ¬ mask items i) (seq 0 (length items))).
Abbreviation nan_idx items :=
  (filter (λ i, mask items i) (seq 0 (length items))).

Lemma mask_spec items i : mask items i ↔ items !! i = Some None.
Proof.
  unfold mask. destruct (items !! i) as [[x|]|]; simpl; naive_solver.
Qed.

Lemma mask_snoc items o i :
  i < length items → mask (items ++ [o]) i ↔ mask items i.
Proof. intros Hi. by rewrite !mask_spec, lookup_app_l. Qed.

Lemma non_nan_idx_snoc items o :
  non_nan_idx (items ++ [o])
  = non_nan_idx items ++ (if o is Some _ then [length items] else []).
Proof.
  rewrite length_app. simpl. rewrite Nat.add_1_r, seq_S, filter_app. simpl.
  f_equal.
  - apply filter_ext_elem. intros i Hi%elem_of_seq.
    rewrite mask_snoc by lia. done.
  - rewrite filter_cons, filter_nil.
    destruct (decide _) as [Hm|Hm]; rewrite mask_spec in Hm;
      rewrite list_lookup_middle in Hm by done; destruct o; naive_solver.
Qed.

(** The present values, in order, sit at the positions [non_nan_idx]. *)
Lemma non_nan_idx_values items :
  Forall2 (λ i x, items !! i = Some (Some x)) (non_nan_idx items) (omap id items).
Proof.
  induction items as [|o items IH] using rev_ind; [constructor|].
  rewrite non_nan_idx_snoc, omap_app. apply Forall2_app.
  - eapply Forall2_impl; [exact IH|]. simpl. intros i x Hi.
    rewrite lookup_app_l; [done|]. by eapply lookup_lt_Some.
  - destruct o as [x|]; simpl; [|constructor].
    repeat constructor. by rewrite list_lookup_middle.
Qed.

Lemma nan_idx_values items :
  Forall (λ i, items !! i = Some None) (nan_idx items).
Proof.
  apply Forall_forall. intros i [Hi _]%list_elem_of_filter.
  by apply mask_spec.
Qed.

Lemma idx_perm items :
  non_nan_idx items ++ nan_idx items ≡ₚ seq 0 (length items).
Proof.
  rewrite (comm (++)). apply (filter_app_complement (λ i, mask items i)).
Qed.

(** The sorted positions of the present values, mapped back to positions
    of [items]; [nn] and [vals] stand for [non_nan_idx] and [non_nans], in
    either direction. *)
Lemma mapped_perm (nn : list nat) (vals : list K) :
  length nn = length vals →
  (nn !!!.) <$> argsort less vals ≡ₚ nn.
Proof.
  intros Hlen. rewrite (argsort_perm less vals), <-Hlen.
  by rewrite fmap_lookup_total_seq.
Qed.

Lemma mapped_keys items (nn : list nat) (vals : list K) :
  Forall2 (λ i x, items !! i = Some (Some x)) nn vals →
  (items !!!.) <$> ((nn !!!.) <$> argsort less vals)
  = Some <$> ((vals !!!.) <$> argsort less vals).
Proof.
  intros Hrel. rewrite <-!list_fmap_compose.
  apply Forall_fmap_ext_1, Forall_forall. intros p Hp%argsort_bound; [|done].
  simpl.
  destruct (lookup_lt_is_Some_2 vals p Hp) as [x Hx].
  destruct (Forall2_lookup_r _ _ _ _ _ Hrel Hx) as (i & Hi & Hix).
  rewrite (list_lookup_total_correct _ _ _ Hi).
  rewrite (list_lookup_total_correct _ _ _ Hix).
  by rewrite (list_lookup_total_correct _ _ _ Hx).
Qed.

Lemma nan_keys items :
  (items !!!.) <$> nan_idx items = replicate (length (nan_idx items)) None.
Proof.
  pose proof (nan_idx_values items) as Hn.
  induction Hn as [|i l Hi Hl IH]; [done|]. csimpl.
  by rewrite IH, (list_lookup_total_correct _ _ _ Hi).
Qed.

Lemma nargsort_values_perm items ascending :
  nargsort_values less items ascending ≡ₚ seq 0 (length items).
Proof.
  unfold nargsort_values. etrans; [|apply idx_perm].
  pose proof (Forall2_length _ _ _ (non_nan_idx_values items)) as Hlen.
  f_equiv. destruct ascending.
  - by apply mapped_perm.
  - rewrite reverse_Permutation.
    rewrite mapped_perm by (by rewrite !length_reverse).
    apply reverse_Permutation.
Qed.

(** The keys read through the result: the present ones in order, then the
    missing ones. *)
Lemma nargsort_values_keys items ascending :
  ∃ ks,
    (items !!!.) <$> nargsort_values less items ascending
      = (Some <$> ks) ++ replicate (length (nan_idx items)) None ∧
    StronglySorted
      (λ x y, if ascending then less y x = false else less x y = false) ks ∧
    ks ≡ₚ omap id items.
Proof.
  unfold nargsort_values. rewrite fmap_app, nan_keys.
  pose proof (non_nan_idx_values items) as Hrel.
  destruct ascending.
  - exists ((omap id items !!!.) <$> argsort less (omap id items)).
    split; [by rewrite (mapped_keys items)|].
    split; [by apply argsort_sorted|].
    rewrite (argsort_perm less). by rewrite fmap_lookup_total_seq.
  - exists (reverse ((reverse (omap id items) !!!.)
              <$> argsort less (reverse (omap id items)))).
    split; [|split].
    + rewrite fmap_reverse, (mapped_keys items) by (by apply Forall2_reverse).
      by rewrite <-fmap_reverse.
    + apply (StronglySorted_rev (λ x y, less y x = false)).
      by apply argsort_sorted.
    + rewrite reverse_Permutation, (argsort_perm less).
      by rewrite fmap_lookup_total_seq, reverse_Permutation.
Qed.

(** The positions of the missing values come out in their own order. *)
Lemma nargsort_values_nan items ascending :
  filter (λ i, mask items i) (nargsort_values less items ascending)
  = nan_idx items.
Proof.
  unfold nargsort_values. rewrite filter_app.
  pose proof (Forall2_length _ _ _ (non_nan_idx_values items)) as Hlen.
  set (present := if ascending then _ else _).
  assert (Hpres : ∀ i, i ∈ present → ¬ mask items i).
  { intros i Hi.
    assert (i ∈ non_nan_idx items) as [? _]%list_elem_of_filter; [|done].
    revert Hi. unfold present. destruct ascending.
    - by rewrite mapped_perm.
    - rewrite elem_of_reverse.
      rewrite mapped_perm by (by rewrite !length_reverse).
      by rewrite elem_of_reverse. }
  replace (filter _ present) with (@nil nat).
  2:{ symmetry. clear -Hpres. induction present as [|i l IH]; [done|].
      rewrite filter_cons_False by (intros ?; eapply Hpres; [by left|done]).
      apply IH. intros j Hj. apply Hpres. by right. }
  simpl. rewrite list_filter_filter.
  apply filter_ext_elem. intros i _. tauto.
Qed.

End nargsort_facts.

(** ** Series *)
Import spec.

Lemma of_num_lookup_total (xs : list (option Q)) i :
  (of_num <$> xs) !!! i = of_num (xs !!! i).
Proof.
  rewrite !list_lookup_total_alt, list_lookup_fmap.
  by destruct (xs !! i).
Qed.

Lemma of_str_lookup_total (xs : list (option string)) i :
  (of_str <$> xs) !!! i = of_str (xs !!! i).
Proof.
  rewrite !list_lookup_total_alt, list_lookup_fmap.
  by destruct (xs !! i).
Qed.

Lemma values_take_series idx s :
  values (take_series idx s) = (values s !!!.) <$> idx.
Proof.
  destruct s as [xs|xs]; simpl; rewrite <-list_fmap_compose;
    apply list_fmap_ext; intros i x _; simpl;
    [by rewrite of_num_lookup_total|by rewrite of_str_lookup_total].
Qed.

Lemma take_series_take_series idx idx' s :
  Forall (λ i, i < length idx) idx' →
  take_series idx' (take_series idx s) = take_series ((idx !!!.) <$> idx') s.
Proof.
  intros Hidx. destruct s as [xs|xs]; simpl; f_equal;
    rewrite <-list_fmap_compose; apply Forall_fmap_ext_1;
    (eapply Forall_impl; [exact Hidx|]); intros i Hi; simpl;
    by rewrite (list_lookup_total_fmap (λ i, xs !!! i) idx i).
Qed.

Lemma nargsort_perm s ascending :
  nargsort s ascending ≡ₚ seq 0 (length (values s)).
Proof.
  destruct s as [xs|xs]; unfold nargsort, values; rewrite length_fmap.
  - exact (nargsort_values_perm Qltb xs ascending).
  - exact (nargsort_values_perm String.ltb xs ascending).
Qed.

Lemma nargsort_length s ascending :
  length (nargsort s ascending) = length (values s).
Proof. by rewrite nargsort_perm, length_seq. Qed.

Lemma scalar_le_num a b : scalar_le (Num a) (Num b) ↔ Qltb b a = false.
Proof. by rewrite Qltb_false. Qed.

(** The ranked column: present values in order, then the missing ones. *)
Lemma nargsort_keys s ascending :
  ∃ present c,
    (values s !!!.) <$> nargsort s ascending = present ++ replicate c NaN ∧
    Forall (λ x, ¬ isna x) present ∧
    StronglySorted (if ascending then scalar_le else flip scalar_le) present.
Proof.
  destruct s as [xs|xs]; unfold nargsort, values.
  - destruct (nargsort_values_keys Qltb xs ascending) as (ks & Hks & Hs & _).
    exists (Num <$> ks); eexists. split; [|split].
    + transitivity (of_num <$> ((xs !!!.) <$> nargsort_values Qltb xs ascending)).
      { rewrite <-list_fmap_compose. apply list_fmap_ext. intros i x _. simpl.
        apply of_num_lookup_total. }
      rewrite Hks, fmap_app, fmap_replicate, <-list_fmap_compose. done.
    + apply Forall_fmap, Forall_true. intros x. simpl. tauto.
    + eapply StronglySorted_fmap; [|exact Hs]. intros x y.
      destruct ascending; unfold flip; by rewrite scalar_le_num.
  - destruct (nargsort_values_keys String.ltb xs ascending) as (ks & Hks & Hs & _).
    exists (Str <$> ks); eexists. split; [|split].
    + transitivity (of_str <$> ((xs !!!.) <$> nargsort_values String.ltb xs ascending)).
      { rewrite <-list_fmap_compose. apply list_fmap_ext. intros i x _. simpl.
        apply of_str_lookup_total. }
      rewrite Hks, fmap_app, fmap_replicate, <-list_fmap_compose. done.
    + apply Forall_fmap, Forall_true. intros x. simpl. tauto.
    + eapply StronglySorted_fmap; [|exact Hs]. intros x y.
      destruct ascending; unfold flip; done.
Qed.

Lemma isna_values_mask_num (xs : list (option Q)) i :
  i < length xs → isna ((of_num <$> xs) !!! i) ↔ mask xs i.
Proof.
  intros Hi. rewrite of_num_lookup_total, mask_spec.
  destruct (lookup_lt_is_Some_2 xs i Hi) as [x Hx].
  rewrite (list_lookup_total_correct _ _ _ Hx), Hx.
  destruct x; simpl; naive_solver.
Qed.

Lemma isna_values_mask_str (xs : list (option string)) i :
  i < length xs → isna ((of_str <$> xs) !!! i) ↔ mask xs i.
Proof.
  intros Hi. rewrite of_str_lookup_total, mask_spec.
  destruct (lookup_lt_is_Some_2 xs i Hi) as [x Hx].
  rewrite (list_lookup_total_correct _ _ _ Hx), Hx.
  destruct x; simpl; naive_solver.
Qed.

(** The positions of the missing values come out in source order. *)
Lemma nargsort_nan s ascending :
  filter (λ i, isna (values s !!! i)) (nargsort s ascending)
  = filter (λ i, isna (values s !!! i)) (seq 0 (length (values s))).
Proof.
  destruct s as [xs|xs]; unfold nargsort, values; rewrite length_fmap.
  - rewrite (filter_ext_elem _ (λ i, mask xs i) (seq _ _))
      by (intros i Hi%elem_of_seq; apply isna_values_mask_num; lia).
    rewrite <-(nargsort_values_nan Qltb xs ascending).
    apply filter_ext_elem. intros i Hi. apply isna_values_mask_num.
    rewrite (nargsort_values_perm Qltb xs), elem_of_seq in Hi. lia.
  - rewrite (filter_ext_elem _ (λ i, mask xs i) (seq _ _))
      by (intros i Hi%elem_of_seq; apply isna_values_mask_str; lia).
    rewrite <-(nargsort_values_nan String.ltb xs ascending).
    apply filter_ext_elem. intros i Hi. apply isna_values_mask_str.
    rewrite (nargsort_values_perm String.ltb xs), elem_of_seq in Hi. lia.
Qed.

Lemma same_key_nan q : same_key q NaN = false.
Proof. by destruct q. Qed.

(** ** Frames *)
Lemma column_cons name n s cols idx :
  column name (mkDataFrame ((n, s) :: cols) idx)
  = if decide (n = name) then Some s else column name (mkDataFrame cols idx).
Proof.
  unfold column. simpl. destruct (decide (n = name)); [done|].
  rewrite <-option_fmap_compose. by destruct (list_find _ cols).
Qed.

Lemma column_is_Some name df : name ∈ columns df ↔ is_Some (column name df).
Proof.
  destruct df as [cols idx]. unfold columns. simpl.
  induction cols as [|[n s] cols IH].
  - split; [by intros ?%elem_of_nil|by intros [? ?]].
  - rewrite column_cons. csimpl. rewrite elem_of_cons, IH.
    destruct (decide (n = name)) as [->|Hn].
    + split; [by eauto|by left].
    + split; [by intros [?|?]|by right].
Qed.

Lemma column_take_rows name idx df :
  column name (take_rows idx df) = take_series idx <$> column name df.
Proof.
  destruct df as [cols ix]. unfold take_rows. simpl.
  induction cols as [|[n s] cols IH]; [done|].
  csimpl. rewrite !column_cons.
  destruct (decide (n = name)); [done|]. apply IH.
Qed.

Lemma len_take_rows idx df : len (take_rows idx df) = length idx.
Proof. unfold len, take_rows. simpl. by rewrite length_fmap. Qed.

Lemma record_take_rows idx df j :
  j < length idx → record (take_rows idx df) j = record df (idx !!! j).
Proof.
  intros Hj. unfold record, take_rows. simpl. rewrite <-list_fmap_compose.
  apply list_fmap_ext. intros ? [n s] _. simpl.
  rewrite values_take_series.
  by rewrite (list_lookup_total_fmap (λ i, values s !!! i) idx j).
Qed.

Lemma to_dict_take_rows idx df : to_dict (take_rows idx df) = record df <$> idx.
Proof.
  unfold to_dict. rewrite len_take_rows.
  rewrite <-(fmap_lookup_total_seq idx) at 3. rewrite <-list_fmap_compose.
  apply list_fmap_ext. intros i j [-> ?]%lookup_seq. simpl.
  by apply record_take_rows.
Qed.

Lemma to_dict_reset_index df : to_dict (reset_index df) = to_dict df.
Proof.
  unfold to_dict, reset_index, len, record. simpl. by rewrite length_seq.
Qed.

Lemma take_rows_take_rows idx idx' df :
  Forall (λ i, i < length idx) idx' →
  take_rows idx' (take_rows idx df) = take_rows ((idx !!!.) <$> idx') df.
Proof.
  intros Hidx. unfold take_rows. simpl. f_equal.
  - rewrite <-list_fmap_compose. apply list_fmap_ext. intros ? [n s] _.
    unfold prod_map. simpl. by rewrite take_series_take_series.
  - rewrite <-!list_fmap_compose. apply Forall_fmap_ext_1.
    eapply Forall_impl; [exact Hidx|]. intros i Hi. simpl.
    by rewrite (list_lookup_total_fmap (λ i, index df !!! i) idx i).
Qed.

(** [head] after [take]: a prefix of the indexer. *)
Lemma head_take_rows n idx df :
  head n (take_rows idx df) = take_rows (take (stop n (length idx)) idx) df.
Proof.
  unfold head. rewrite len_take_rows. fold (stop n (length idx)).
  rewrite take_rows_take_rows.
  2:{ apply Forall_forall. intros i Hi%elem_of_seq. lia. }
  rewrite fmap_lookup_total_take by lia.
  destruct (decide (stop n (length idx) ≤ length idx)).
  - by rewrite Nat.min_l by done.
  - rewrite Nat.min_r by lia. by rewrite !take_ge by lia.
Qed.
End pandas_facts.

(** * Properties of the module *)
Module deployment_facts.
Import list_facts sortspec pandas_facts pandas spec.

(** [x ∉ [a; b; ...]] for closed, pairwise different terms. *)
Ltac not_listed :=
  let H := fresh in
  intros H; repeat (apply elem_of_cons in H as [H|H]; [discriminate|]);
  by apply elem_of_nil in H.

Lemma weibull_not_classifier :
  weibull_tte_rnn ∉ [logistic_regression; xgboost].
Proof. not_listed. Qed.

Lemma ranks_by_total df m : ∃ c asc, ranks_by df m c asc.
Proof.
  destruct (decide ("rank" ∈ columns df)); [by eauto using by_rank|].
  destruct m.
  - exists "prob_first_time_investor", false. apply by_prob; [done|]. by left.
  - exists "prob_first_time_investor", false. apply by_prob; [done|].
    right. by left.
  - exists "risk_6m", false. by apply by_risk.
Qed.

(** [_top_rows] in one equation per outcome: the rows at a prefix of the
    sorted positions, or the 422 of the missing column. *)
Lemma top_rows_ranked df m top_x c asc k :
  ranks_by df m c asc → column c df = Some k →
  _top_rows df m top_x
  = Return (reset_index
      (take_rows (take (stop top_x (length (values k))) (nargsort k asc)) df)).
Proof.
  intros Hby Hk.
  assert (Hc : c ∈ columns df) by (apply column_is_Some; by rewrite Hk).
  unfold _top_rows, ranked.
  assert (Hsort : sort_head c asc top_x df
    = Return (take_rows (take (stop top_x (length (values k)))
                          (nargsort k asc)) df)).
  { unfold sort_head, sort_values. rewrite Hk. simpl.
    by rewrite head_take_rows, nargsort_length. }
  destruct Hby as [Hrank|Hno Hm|Hno ->].
  - rewrite bool_decide_true by done. by rewrite Hsort.
  - rewrite bool_decide_false by done. rewrite (bool_decide_true _ Hm).
    rewrite bool_decide_false by (by intros []). by rewrite Hsort.
  - rewrite bool_decide_false by done.
    rewrite bool_decide_false by apply weibull_not_classifier.
    rewrite bool_decide_false by (by intros []). by rewrite Hsort.
Qed.

Lemma top_rows_missing df m top_x c asc :
  ranks_by df m c asc → c ∉ columns df →
  _top_rows df m top_x
  = Raise (HTTPException 422 ("Expected column '" +:+ c +:+ "' was not found.")).
Proof.
  intros Hby Hc. unfold _top_rows, ranked.
  destruct Hby as [Hrank|Hno Hm|Hno ->]; [done|..].
  - rewrite bool_decide_false by done. rewrite (bool_decide_true _ Hm).
    by rewrite bool_decide_true by done.
  - rewrite bool_decide_false by done.
    rewrite bool_decide_false by apply weibull_not_classifier.
    by rewrite bool_decide_true by done.
Qed.

(** ** Rows and keys of the selected frame *)
Lemma get_record c df k i :
  column c df = Some k → get c (record df i) = values k !!! i.
Proof.
  destruct df as [cols ix]. unfold record, get. simpl.
  induction cols as [|[n s] cols IH]; [done|].
  rewrite column_cons. csimpl.
  destruct (decide (n = c)) as [->|Hn].
  - by intros [= ->].
  - intros Hk. specialize (IH Hk). revert IH.
    by destruct (list_find _ _) as [[??]|].
Qed.

Lemma rows_with_record c P df k (l : list nat) :
  column c df = Some k →
  rows_with c P (record df <$> l)
  = record df <$> filter (λ i, P (values k !!! i)) l.
Proof.
  intros Hk. unfold rows_with. induction l as [|i l IH]; [done|].
  csimpl. rewrite !filter_cons, IH, (get_record c df k i Hk).
  by destruct (decide _).
Qed.

Lemma column_elem_of c df k :
  column c df = Some k → (c, k) ∈ data df.
Proof.
  destruct df as [cols ix]. simpl.
  induction cols as [|[n s] cols IH]; [done|].
  rewrite column_cons. destruct (decide (n = c)) as [->|Hn].
  - intros [= ->]. by left.
  - intros Hk. right. by apply IH.
Qed.

Lemma column_length c df k :
  well_formed df → column c df = Some k → length (values k) = len df.
Proof.
  intros Hwf Hk%column_elem_of. unfold well_formed in Hwf.
  rewrite Forall_forall in Hwf. by apply (Hwf (c, k)).
Qed.

(** The frame [_top_rows] returns for a prefix [pos] of the sorted
    positions. *)
Lemma selected_to_dict pos df :
  to_dict (reset_index (take_rows pos df)) = record df <$> pos.
Proof. by rewrite to_dict_reset_index, to_dict_take_rows. Qed.

Lemma selected_len pos df : len (reset_index (take_rows pos df)) = length pos.
Proof.
  unfold reset_index, len at 1. simpl. by rewrite length_seq, len_take_rows.
Qed.

Lemma selected_cells c pos df k :
  column c df = Some k →
  cells c (reset_index (take_rows pos df)) = (values k !!!.) <$> pos.
Proof.
  intros Hk. unfold cells.
  replace (column c (reset_index (take_rows pos df)))
    with (column c (take_rows pos df)) by done.
  by rewrite column_take_rows, Hk; simpl; rewrite values_take_series.
Qed.

Lemma top_rows_inv df m top_x c asc out :
  ranks_by df m c asc → _top_rows df m top_x = Return out →
  ∃ k, column c df = Some k ∧
    out = reset_index
      (take_rows (take (stop top_x (length (values k))) (nargsort k asc)) df).
Proof.
  intros Hby Hout. destruct (column c df) as [k|] eqn:Hk.
  - exists k. split; [done|].
    rewrite (top_rows_ranked df m top_x c asc k) in Hout by done. congruence.
  - rewrite (top_rows_missing df m top_x c asc) in Hout; [done..|].
    rewrite column_is_Some, Hk. by intros [? ?].
Qed.

Lemma columns_selected pos df :
  columns (reset_index (take_rows pos df)) = columns df.
Proof.
  unfold columns, reset_index, take_rows. simpl.
  rewrite <-list_fmap_compose. by apply list_fmap_ext; intros ? [??].
Qed.

Lemma record_names df i : (record df i).*1 = columns df.
Proof.
  unfold record, columns. rewrite <-list_fmap_compose.
  by apply list_fmap_ext.
Qed.

Lemma record_cells df i :
  (record df i).*2 = (λ c, values c.2 !!! i) <$> data df.
Proof.
  unfold record. rewrite <-list_fmap_compose. by apply list_fmap_ext.
Qed.

(** ** Sorted columns with their missing values last *)
Lemma dropna_present (l : list scalar) :
  Forall (λ x, ¬ isna x) l → dropna l = l.
Proof.
  unfold dropna. induction 1 as [|x l Hx Hl IH]; [done|].
  by rewrite filter_cons_True, IH.
Qed.

Lemma dropna_replicate n : dropna (replicate n NaN) = [].
Proof.
  unfold dropna. induction n as [|n IH]; [done|]. simpl.
  rewrite filter_cons_False; [done|]. simpl. tauto.
Qed.

Lemma nulls_last_app (present : list scalar) n :
  Forall (λ x, ¬ isna x) present → nulls_last (present ++ replicate n NaN).
Proof.
  intros Hp i j x Hij Hi Hj.
  destruct (decide (i < length present)) as [Hlt|Hge].
  - rewrite lookup_app_l in Hi by done.
    rewrite Forall_forall in Hp.
    apply list_elem_of_lookup_2, Hp in Hi. simpl in Hi. tauto.
  - rewrite lookup_app_r in Hj by lia.
    by apply lookup_replicate in Hj as [-> _].
Qed.

Lemma take_present_nan (present : list scalar) n s :
  take s (present ++ replicate n NaN)
  = take s present ++ replicate (Nat.min (s - length present) n) NaN.
Proof. by rewrite take_app, take_replicate. Qed.

Lemma sorted_pairwise (R : relation scalar) (l : list scalar) :
  StronglySorted R l →
  ∀ i j x y, i < j → l !! i = Some x → l !! j = Some y → R x y.
Proof. intros Hl i j x y. by apply StronglySorted_lookup. Qed.

(** The ranking column of the selected frame. *)
Lemma selected_column df m top_x c asc out :
  ranks_by df m c asc → _top_rows df m top_x = Return out →
  ∃ present n,
    cells c out = present ++ replicate n NaN ∧
    Forall (λ x, ¬ isna x) present ∧
    StronglySorted (if asc then scalar_le else flip scalar_le) present.
Proof.
  intros Hby Hout.
  destruct (top_rows_inv _ _ _ _ _ _ Hby Hout) as (k & Hk & ->).
  rewrite (selected_cells c _ df k Hk), fmap_take.
  destruct (nargsort_keys k asc) as (present & n & -> & Hp & Hs).
  rewrite take_present_nan. eexists _, _. split; [done|]. split.
  - by apply Forall_take.
  - by apply StronglySorted_take.
Qed.
End deployment_facts.

(** * The service: ranking, truncation, failures, answers *)
Module deployment_spec.
Import list_facts sortspec pandas_facts deployment_facts pandas spec examples.

(** ** The program on small inputs *)

(** Seventeen equal keys are one run too long for the insertion sort: the
    partition exchanges them around the pivot. *)
Example argsort_of_string_ties :
  npysort.argsort String.ltb (replicate 17 "gold")
  = [0; 14; 13; 12; 11; 10; 9; 15; 8; 6; 5; 4; 3; 2; 1; 7; 16].
Proof. vm_compute. reflexivity. Qed.

(** Three rows with different risks, [top_x = 2]: the two highest risks,
    highest first. *)
Example top_two_risks :
  _top_rows risks3 weibull_tte_rnn 2
  = Return {| data := [("customer_id", ints [2; 3]%Z);
                       ("risk_6m", Numeric [Some (7 # 10); Some (5 # 10)]%Q)];
              index := [0; 1] |}.
Proof. vm_compute. reflexivity. Qed.

Example json_answer :
  get_predictions fs_risks weibull_tte_rnn 2 json
  = Return (JSONResponse
      {| model := "weibull_tte_rnn"; top_x := 2; count := 2;
         results :=
           [[("customer_id", Num 2); ("risk_6m", Num (7 # 10))];
            [("customer_id", Num 3); ("risk_6m", Num (5 # 10))]]
      |}).
Proof. vm_compute. reflexivity. Qed.

(** A missing cell among the returned rows cannot be rendered as JSON. *)
Example json_answer_with_missing_cell :
  get_predictions {[ "xgb_predictions_all.csv" := Table null_rank ]}
    xgboost 2 json
  = Raise ValueError.
Proof. vm_compute. reflexivity. Qed.

Example out_of_range_top_x :
  predictions fs_scores xgboost (Some 0%Z) None = Raise RequestValidationError.
Proof. vm_compute. reflexivity. Qed.

(** ** C1: order among equal keys *)
Lemma sublist_same_length {A} (l1 l2 : list A) :
  l1 `sublist_of` l2 → length l2 ≤ length l1 → l1 = l2.
Proof.
  induction 1 as [|x l1 l2 Hl IH|x l1 l2 Hl IH]; simpl; intros Hlen.
  - done.
  - f_equal. apply IH. lia.
  - apply sublist_length in Hl. lia.
Qed.

(** C1 fails on the code: seventeen rows of equal rank do not come back
    in file order, because [sort_values] is called with its default,
    unstable quicksort. *)
Lemma ties_reordered :
  ∃ out, _top_rows gold17 xgboost 17 = Return out ∧
    well_formed gold17 ∧ ranks_by gold17 xgboost "rank" true ∧
    ¬ stable "rank" gold17 out.
Proof.
  eexists. split; [vm_compute; reflexivity|]. split; [|split].
  - repeat constructor.
  - apply by_rank. vm_compute. right. by left.
  - intros Hst. specialize (Hst (Str "gold")).
    apply sublist_same_length in Hst; [|vm_compute; lia].
    vm_compute in Hst. discriminate Hst.
Qed.

(** C1, amended.  In every ranking branch the rows whose key is missing
    keep the order of the source file.  Among rows with equal present keys
    no order is kept: the answer holds rows of the source with that key,
    none more often than the source does. *)
Theorem equal_keys_order df m top_x c asc out :
  well_formed df → ranks_by df m c asc → _top_rows df m top_x = Return out →
  rows_with c isna (to_dict out) `sublist_of` rows_with c isna (to_dict df) ∧
  ∀ k, rows_with c (same_key k) (to_dict out)
         ⊆+ rows_with c (same_key k) (to_dict df).
Proof.
  intros Hwf Hby Hout.
  destruct (top_rows_inv _ _ _ _ _ _ Hby Hout) as (k & Hk & ->).
  pose proof (column_length c df k Hwf Hk) as Hlen.
  rewrite selected_to_dict. unfold to_dict.
  setoid_rewrite (rows_with_record c _ df k _ Hk).
  rewrite <-Hlen. split.
  - apply fmap_sublist. rewrite <-(nargsort_nan k asc).
    apply sublist_filter_mono, sublist_take.
  - intros q. apply submseteq_sublist_l.
    exists (record df <$> filter (λ i, same_key q (values k !!! i))
                            (nargsort k asc)).
    split.
    + apply fmap_sublist, sublist_filter_mono, sublist_take.
    + by rewrite nargsort_perm.
Qed.

Lemma equal_keys_order_witness :
  ∃ out, _top_rows scores3 xgboost 2 = Return out ∧
    rows_with "prob_first_time_investor" isna (to_dict out)
      `sublist_of` rows_with "prob_first_time_investor" isna (to_dict scores3) ∧
    ∀ k, rows_with "prob_first_time_investor" (same_key k) (to_dict out)
           ⊆+ rows_with "prob_first_time_investor" (same_key k)
                (to_dict scores3).
Proof.
  eexists. split; [vm_compute; reflexivity|].
  apply (equal_keys_order scores3 xgboost 2 "prob_first_time_investor" false).
  - repeat constructor.
  - apply by_prob; [vm_compute|right; by left].
    not_listed.
  - vm_compute. reflexivity.
Defined.

(** ** C2: order of the ranking column *)

(** C2 fails on the code: a missing rank is placed last, and [1 <= NaN]
    is false, so the ranked column is not non-decreasing. *)
Lemma missing_rank_breaks_order :
  ∃ out, _top_rows null_rank xgboost 2 = Return out ∧
    ranks_by null_rank xgboost "rank" true ∧
    ¬ non_decreasing (cells "rank" out).
Proof.
  eexists. split; [vm_compute; reflexivity|]. split.
  - apply by_rank. vm_compute. right. by left.
  - intros Hnd.
    exact (Hnd 0 1 (Num 1) NaN ltac:(lia) eq_refl eq_refl).
Qed.

(** C2, amended.  In the frame [_top_rows] returns, the present values of
    the ranking column are sorted by the applicable criterion
    (non-decreasing [rank], else non-increasing
    [prob_first_time_investor] for the two classifiers and non-increasing
    [risk_6m] for the time-to-event model) and the missing values come
    after all of them. *)
Theorem output_sorted df m top_x c asc out :
  ranks_by df m c asc → _top_rows df m top_x = Return out →
  nulls_last (cells c out) ∧
  (if asc then non_decreasing (dropna (cells c out))
   else non_increasing (dropna (cells c out))).
Proof.
  intros Hby Hout.
  destruct (selected_column _ _ _ _ _ _ Hby Hout) as (present & n & -> & Hp & Hs).
  split; [by apply nulls_last_app|].
  unfold dropna. rewrite filter_app. fold (dropna present).
  fold (dropna (replicate n NaN)).
  rewrite dropna_present, dropna_replicate, (right_id_L [] (++)) by done.
  destruct asc; intros i j x y Hij Hi Hj.
  - by apply (sorted_pairwise _ _ Hs i j).
  - by apply (sorted_pairwise _ _ Hs i j).
Qed.

Lemma output_sorted_witness :
  ∃ out, _top_rows null_rank xgboost 2 = Return out ∧
    nulls_last (cells "rank" out) ∧ non_decreasing (dropna (cells "rank" out)).
Proof.
  eexists. split; [vm_compute; reflexivity|].
  apply (output_sorted null_rank xgboost 2 "rank" true).
  - apply by_rank. vm_compute. right. by left.
  - vm_compute. reflexivity.
Defined.


Lemma get_predictions_inv fs m top_x output resp :
  get_predictions fs m top_x output = Return resp →
  ∃ df top_df,
    _load_predictions fs m = Return df ∧
    _top_rows df m top_x = Return top_df ∧
    returned_rows resp = len top_df ∧
    (output = json → resp = JSONResponse
       {| model := value m; top_x := top_x;
          count := Z.of_nat (len top_df); results := to_dict top_df |}).
Proof.
  unfold get_predictions.
  destruct (_load_predictions fs m) as [df|e] eqn:Hload; simpl; [|done].
  destruct (_top_rows df m top_x) as [top_df|e] eqn:Htop; simpl; [|done].
  intros Hresp. exists df, top_df. split; [done|]. split; [done|].
  destruct output; simpl in Hresp.
  - unfold render_json in Hresp. destruct (json_compliant _); [|done].
    simplify_eq. simpl. unfold to_dict. rewrite length_fmap, length_seq.
    done.
  - simplify_eq. simpl. rewrite length_fmap, length_seq. done.
Qed.



(** ** C4: a count above the number of rows *)

(** C4 fails on the code for a table that lacks the ranking column: the
    selector raises 422 whatever [top_x] is. *)
Lemma oversized_top_x_can_fail :
  well_formed no_score ∧ empty no_score = false ∧
  (Z.of_nat (len no_score) < 5)%Z ∧
  _top_rows no_score weibull_tte_rnn 5
  = Raise (HTTPException 422 "Expected column 'risk_6m' was not found.").
Proof.
  split; [repeat constructor|]. split; [done|]. split; [done|].
  vm_compute. reflexivity.
Qed.

(** C4, amended.  For every non-empty loaded table that has the column
    the selector ranks by, a [top_x] above the number of rows returns
    exactly all the rows and does not fail. *)
Theorem oversized_top_x df m top_x c asc :
  well_formed df → empty df = false →
  ranks_by df m c asc → c ∈ columns df →
  (Z.of_nat (len df) < top_x)%Z →
  ∃ out, _top_rows df m top_x = Return out ∧ len out = len df.
Proof.
  intros Hwf _ Hby [k Hk]%column_is_Some Htop.
  pose proof (column_length c df k Hwf Hk) as Hlen.
  eexists. split; [by apply (top_rows_ranked df m top_x c asc k)|].
  rewrite selected_len, length_take, nargsort_length, Hlen.
  unfold stop. destruct (0 <=? top_x)%Z eqn:Hpos; [|lia]. lia.
Qed.

Lemma oversized_top_x_witness :
  ∃ out, _top_rows scores3 xgboost 1000 = Return out ∧ len out = len scores3.
Proof.
  apply (oversized_top_x scores3 xgboost 1000 "prob_first_time_investor" false).
  - repeat constructor.
  - done.
  - apply by_prob; [vm_compute|right; by left].
    not_listed.
  - vm_compute. right. by left.
  - vm_compute. reflexivity.
Defined.

(** ** C5 and C6: failures and their messages *)
Lemma append_assoc (a b c : string) : (a +:+ b) +:+ c = a +:+ b +:+ c.
Proof.
  induction a as [|ch a IH]; [done|].
  change (String ch ((a +:+ b) +:+ c) = String ch (a +:+ b +:+ c)).
  by rewrite IH.
Qed.

Lemma append_empty_r (a : string) : a +:+ "" = a.
Proof.
  induction a as [|ch a IH]; [done|].
  change (String ch (a +:+ "") = String ch a). by rewrite IH.
Qed.

Lemma contains_middle (a s b : string) : contains (a +:+ s +:+ b) s.
Proof. by exists a, b. Qed.

Lemma contains_end (a s : string) : contains (a +:+ s) s.
Proof. exists a, "". by rewrite append_empty_r. Qed.

Lemma prefixb_app (s b : string) : prefixb s (s +:+ b) = true.
Proof.
  induction s as [|ch s IH]; [done|].
  change (bool_decide (ch = ch) && prefixb s (s +:+ b) = true).
  by rewrite bool_decide_true, IH.
Qed.

Lemma contains_infixb (t s : string) : contains t s → infixb s t = true.
Proof.
  intros (a & b & ->). induction a as [|ch a IH].
  - change ("" +:+ s +:+ b) with (s +:+ b).
    destruct (s +:+ b) eqn:Hsb; simpl; rewrite <-?Hsb;
      by rewrite prefixb_app.
  - change (prefixb s (String ch (a +:+ s +:+ b))
            || infixb s (a +:+ s +:+ b) = true).
    rewrite IH. apply orb_true_r.
Qed.

Lemma get_predictions_load_error fs m top_x output e :
  _load_predictions fs m = Raise e →
  get_predictions fs m top_x output = Raise e.
Proof. unfold get_predictions. by intros ->. Qed.

Lemma get_predictions_rank_error fs m top_x output df e :
  _load_predictions fs m = Return df → _top_rows df m top_x = Raise e →
  get_predictions fs m top_x output = Raise e.
Proof.
  unfold get_predictions. intros Hload Htop. rewrite Hload. simpl.
  by rewrite Htop.
Qed.

(** C5.  In the loader a missing file and a table without rows raise 404,
    and a file that cannot be parsed raises 500 with the parser's message
    in the detail; in the selector a table without the column to rank by
    (no [rank], and no score column for the model) raises 422 with that
    column's name in the detail.  The handler passes each of them on
    unchanged, so these inputs have no other outcome, and the three codes
    differ. *)
Theorem failure_classes fs m top_x output :
  (fs !! MODEL_FILES m = None →
     ∃ detail, _load_predictions fs m = Raise (HTTPException 404 detail)) ∧
  (∀ df, fs !! MODEL_FILES m = Some (Table df) → len df = 0 →
     ∃ detail, _load_predictions fs m = Raise (HTTPException 404 detail)) ∧
  (∀ error, fs !! MODEL_FILES m = Some (Malformed error) →
     ∃ detail, _load_predictions fs m = Raise (HTTPException 500 detail) ∧
       contains detail error) ∧
  (∀ df c asc, ranks_by df m c asc → c ∉ columns df →
     ∃ detail, _top_rows df m top_x = Raise (HTTPException 422 detail) ∧
       contains detail c) ∧
  (∀ e, _load_predictions fs m = Raise e →
     get_predictions fs m top_x output = Raise e) ∧
  (∀ df e, _load_predictions fs m = Return df →
     _top_rows df m top_x = Raise e →
     get_predictions fs m top_x output = Raise e) ∧
  (404 ≠ 500 ∧ 404 ≠ 422 ∧ 500 ≠ 422)%Z.
Proof.
  split; [|split; [|split; [|split; [|split; [|split]]]]].
  - intros Hfs. eexists. unfold _load_predictions. by rewrite Hfs.
  - intros df Hfs Hlen. eexists. unfold _load_predictions. rewrite Hfs.
    simpl. unfold empty. by rewrite Hlen.
  - intros error Hfs. eexists. split.
    + unfold _load_predictions. by rewrite Hfs.
    + rewrite <-append_assoc, <-append_assoc. apply contains_end.
  - intros df c asc Hby Hc. eexists. split.
    + by apply (top_rows_missing df m top_x c asc).
    + apply contains_middle.
  - apply get_predictions_load_error.
  - apply get_predictions_rank_error.
  - lia.
Qed.

Lemma failure_classes_witness :
  (∃ detail, _load_predictions fs_scores logistic_regression
             = Raise (HTTPException 404 detail)) ∧
  (∃ detail, _load_predictions fs_header_only xgboost
             = Raise (HTTPException 404 detail)) ∧
  (∃ detail, _load_predictions fs_malformed xgboost
             = Raise (HTTPException 500 detail) ∧
             contains detail "Error tokenizing data") ∧
  (∃ detail, _top_rows no_score xgboost 10
             = Raise (HTTPException 422 detail) ∧
             contains detail "prob_first_time_investor") ∧
  get_predictions fs_no_score xgboost 10 json
  = Raise (HTTPException 422
      "Expected column 'prob_first_time_investor' was not found.").
Proof.
  split; [|split; [|split; [|split]]].
  - by apply (proj1 (failure_classes fs_scores logistic_regression 10 json)).
  - by apply (proj1 (proj2 (failure_classes fs_header_only xgboost 10 json))
                header_only).
  - by apply (proj1 (proj2 (proj2
                (failure_classes fs_malformed xgboost 10 json)))).
  - apply (proj1 (proj2 (proj2 (proj2
             (failure_classes fs_no_score xgboost 10 json))))
             no_score "prob_first_time_investor" false).
    + apply by_prob; [vm_compute|right; by left].
      not_listed.
    + vm_compute.
      not_listed.
  - apply (proj1 (proj2 (proj2 (proj2 (proj2 (proj2
             (failure_classes fs_no_score xgboost 10 json))))))
             no_score); vm_compute; reflexivity.
Defined.

(** C6 fails on the code: the 404 of a table without rows names the file
    and not the model. *)
Lemma empty_table_message_omits_model :
  get_predictions fs_header_only xgboost 10 json
  = Raise (HTTPException 404
             "Prediction file 'xgb_predictions_all.csv' is empty.") ∧
  ¬ contains "Prediction file 'xgb_predictions_all.csv' is empty."
      (value xgboost).
Proof.
  split; [vm_compute; reflexivity|].
  intros H%contains_infixb. vm_compute in H. discriminate H.
Qed.

(** C6, amended.  The 404 of a missing file names the file and the model;
    the 404 of a table without rows names the file. *)
Theorem not_found_messages fs m top_x output :
  (fs !! MODEL_FILES m = None →
     ∃ detail, get_predictions fs m top_x output
               = Raise (HTTPException 404 detail) ∧
       contains detail (MODEL_FILES m) ∧ contains detail (value m)) ∧
  (∀ df, fs !! MODEL_FILES m = Some (Table df) → len df = 0 →
     ∃ detail, get_predictions fs m top_x output
               = Raise (HTTPException 404 detail) ∧
       contains detail (MODEL_FILES m)).
Proof.
  split.
  - intros Hfs. eexists. split; [|split].
    + apply get_predictions_load_error.
      unfold _load_predictions. by rewrite Hfs.
    + rewrite <-append_assoc, <-append_assoc. apply contains_end.
    + apply contains_middle.
  - intros df Hfs Hlen. eexists. split.
    + apply get_predictions_load_error.
      unfold _load_predictions. rewrite Hfs. simpl.
      unfold empty. by rewrite Hlen.
    + apply contains_middle.
Qed.

Lemma not_found_messages_witness :
  (∃ detail, get_predictions fs_scores logistic_regression 10 json
             = Raise (HTTPException 404 detail) ∧
     contains detail "logreg_predictions_all.csv" ∧
     contains detail "logistic_regression") ∧
  (∃ detail, get_predictions fs_header_only xgboost 10 json
             = Raise (HTTPException 404 detail) ∧
     contains detail "xgb_predictions_all.csv").
Proof.
  split.
  - by apply (proj1 (not_found_messages fs_scores logistic_regression 10 json)).
  - by apply (proj2 (not_found_messages fs_header_only xgboost 10 json)
                header_only).
Defined.

(** ** C7 and C9: the answer *)

(** C7.  The body of a successful JSON answer holds the model
    identifier, the requested [top_x], the number of returned rows and the
    selected rows in order: as many rows as the selected frame has, the
    row at position [i] giving the column names of the table, in their
    order, the cells that the selected frame has in its row [i]. *)
Theorem json_body fs m x resp :
  get_predictions fs m x json = Return resp →
  ∃ df top_df body,
    _load_predictions fs m = Return df ∧
    _top_rows df m x = Return top_df ∧
    resp = JSONResponse body ∧
    model body = value m ∧
    top_x body = x ∧
    count body = Z.of_nat (length (results body)) ∧
    length (results body) = len top_df ∧
    ∀ i row, results body !! i = Some row →
      row.*1 = columns df ∧
      row.*2 = (λ c, values c.2 !!! i) <$> data top_df.
Proof.
  intros Hresp.
  destruct (get_predictions_inv _ _ _ _ _ Hresp)
    as (df & top_df & Hload & Htop & _ & Hjson).
  exists df, top_df. eexists. split; [done|]. split; [done|].
  split; [by apply Hjson|]. simpl. split; [done|]. split; [done|].
  unfold to_dict. rewrite length_fmap, length_seq.
  split; [done|]. split; [done|]. intros i row Hrow.
  rewrite list_lookup_fmap in Hrow.
  destruct (seq 0 (len top_df) !! i) as [j|] eqn:Hj; [|done].
  apply lookup_seq in Hj as [-> _]. injection Hrow as <-.
  rewrite record_names, record_cells. split; [|done].
  destruct (ranks_by_total df m) as (c & asc & Hby).
  destruct (top_rows_inv _ _ _ _ _ _ Hby Htop) as (k & _ & ->).
  apply columns_selected.
Qed.

Lemma json_body_witness :
  ∃ resp df top_df body,
    get_predictions fs_scores xgboost 2 json = Return resp ∧
    _load_predictions fs_scores xgboost = Return df ∧
    _top_rows df xgboost 2 = Return top_df ∧
    resp = JSONResponse body ∧
    model body = "xgboost" ∧ top_x body = 2%Z ∧
    count body = Z.of_nat (length (results body)) ∧
    length (results body) = len top_df ∧
    ∀ i row, results body !! i = Some row →
      row.*1 = columns df ∧
      row.*2 = (λ c, values c.2 !!! i) <$> data top_df.
Proof.
  eexists.
  destruct (json_body fs_scores xgboost 2 _ eq_refl)
    as (df & top_df & body & H).
  exists df, top_df, body. split; [reflexivity|]. exact H.
Defined.

(** C9.  An absent [top_x] is 1000 and an absent [output] is [json]: the
    route answers as if the values had been passed. *)
Theorem query_defaults fs m x o :
  predictions fs m None o = predictions fs m (Some 1000%Z) o ∧
  predictions fs m x None = predictions fs m x (Some json) ∧
  predictions fs m None None = get_predictions fs m 1000 json.
Proof. done. Qed.

(** ** C10: rows with a missing key *)
Lemma get_sorted_rows c df k (idx : list nat) :
  column c df = Some k →
  get c <$> (record df <$> idx) = (values k !!!.) <$> idx.
Proof.
  intros Hk. rewrite <-list_fmap_compose. apply list_fmap_ext.
  intros ? i _. simpl. by apply get_record.
Qed.

(** C10.  In every ranking branch whose column exists, the selector
    succeeds; the rows are those of the source, rearranged so that no row
    with a missing key stands above a row with a present one, and the
    result is the first [top_x] of them: a missing key neither removes a
    row nor raises. *)
Theorem missing_keys_last df m top_x c asc :
  well_formed df → ranks_by df m c asc → c ∈ columns df →
  ∃ out sorted,
    _top_rows df m top_x = Return out ∧
    sorted ≡ₚ to_dict df ∧
    nulls_last (get c <$> sorted) ∧
    to_dict out = take (stop top_x (len df)) sorted ∧
    nulls_last (cells c out).
Proof.
  intros Hwf Hby [k Hk]%column_is_Some.
  pose proof (column_length c df k Hwf Hk) as Hlen.
  eexists _, (record df <$> nargsort k asc).
  split; [by apply (top_rows_ranked df m top_x c asc k)|].
  split; [|split; [|split]].
  - unfold to_dict. by rewrite nargsort_perm, Hlen.
  - rewrite (get_sorted_rows c df k _ Hk).
    destruct (nargsort_keys k asc) as (present & n & -> & Hp & _).
    by apply nulls_last_app.
  - by rewrite selected_to_dict, fmap_take, Hlen.
  - destruct (selected_column df m top_x c asc _ Hby
                (top_rows_ranked df m top_x c asc k Hby Hk))
      as (present & n & -> & Hp & _).
    by apply nulls_last_app.
Qed.

Lemma missing_keys_last_witness :
  ∃ out sorted,
    _top_rows null_rank xgboost 1 = Return out ∧
    sorted ≡ₚ to_dict null_rank ∧
    nulls_last (get "rank" <$> sorted) ∧
    to_dict out = take (stop 1 (len null_rank)) sorted ∧
    nulls_last (cells "rank" out).
Proof.
  apply (missing_keys_last null_rank xgboost 1 "rank" true).
  - repeat constructor.
  - apply by_rank. vm_compute. right. by left.
  - vm_compute. right. by left.
Defined.
End deployment_spec.

(** * Rankings of the same keys *)
Module sorted_input.
Import npysort sortspec list_facts npysort_facts pandas pandas_facts spec
  spec_more.

Lemma filter_all {A} (P : A → Prop) `{!∀ x, Decision (P x)} (l : list A) :
  Forall P l → filter P l = l.
Proof.
  induction 1 as [|x l Hx Hl IH]; [done|]. by rewrite filter_cons_True, IH.
Qed.

Lemma filter_none {A} (P : A → Prop) `{!∀ x, Decision (P x)} (l : list A) :
  Forall (λ x, ¬ P x) l → filter P l = [].
Proof.
  induction 1 as [|x l Hx Hl IH]; [done|]. by rewrite filter_cons_False.
Qed.

Section tied.
Context {A : Type} (R : relation A) `{!Transitive R}.

Lemma tied_sym x y : tied R x y → tied R y x.
Proof. by intros [??]. Qed.

Lemma tied_trans x y z : tied R x y → tied R y z → tied R x z.
Proof. intros [??] [??]. split; by etrans. Qed.

Lemma Forall2_tied_all x (u u' : list A) :
  Forall (tied R x) u → Forall (tied R x) u' → length u = length u' →
  Forall2 (tied R) u u'.
Proof.
  intros Hu. revert u'. induction Hu as [|y u Hy Hu IH]; intros [|y' u'] Hu' Hlen;
    simplify_eq/=; [constructor|].
  apply Forall_cons in Hu' as [Hy' Hu']. constructor; [|by apply IH].
  by eapply tied_trans; [apply tied_sym|].
Qed.

(** Two sorted arrangements of the same values agree position by position
    up to ties. *)
Lemma sorted_perm_tied (l1 l2 : list A) :
  Forall (λ x, R x x) l1 → StronglySorted R l1 → StronglySorted R l2 →
  l1 ≡ₚ l2 → Forall2 (tied R) l1 l2.
Proof.
  intros Hrefl Hs1. revert l2.
  induction Hs1 as [|x l1 Hs1 IH Hx]; intros l2 Hs2 Hperm.
  { apply Permutation_nil_l in Hperm as <-. constructor. }
  apply Forall_cons in Hrefl as [Hxx Hrefl].
  assert (Hin : x ∈ l2) by (rewrite <-Hperm; by left).
  apply list_elem_of_split in Hin as (a & b & ->).
  rewrite <-Permutation_middle in Hperm. apply Permutation_cons_inv in Hperm.
  apply StronglySorted_app in Hs2 as (Hcross & Ha & Hxb).
  apply StronglySorted_inv in Hxb as [Hb Hxb'].
  assert (Hab : StronglySorted R (a ++ b)).
  { apply StronglySorted_app_2; [|done..].
    intros z w Hz Hw. apply Hcross; [done|by right]. }
  specialize (IH Hrefl _ Hab Hperm).
  apply Forall2_app_inv_r in IH as (l1a & l1b & Hl1a & Hl1b & ->).
  assert (Hax : Forall (tied R x) a).
  { apply Forall_forall. intros z Hz. split.
    - rewrite Forall_forall in Hx. apply Hx. rewrite Hperm.
      apply elem_of_app. by left.
    - apply Hcross; [done|by left]. }
  assert (Hl1ax : Forall (tied R x) l1a).
  { clear -Hl1a Hax Transitive0. induction Hl1a as [|y z l1a a Hyz Hl IHl];
      [constructor|].
    apply Forall_cons in Hax as [Hz Hax]. constructor; [|by apply IHl].
    eapply tied_trans; [exact Hz|by apply tied_sym]. }
  change (Forall2 (tied R) ((x :: l1a) ++ l1b) (a ++ [x] ++ b)).
  rewrite (assoc (++) a). apply Forall2_app; [|done].
  apply (Forall2_tied_all x).
  - by constructor.
  - apply Forall_app. split; [done|]. by repeat constructor.
  - rewrite length_app. simpl. apply Forall2_length in Hl1a. lia.
Qed.
End tied.

Lemma scalar_le_trans : Transitive scalar_le.
Proof.
  intros [a|a|] [b|b|] [c|c|]; simpl; try done.
  - apply Qle_trans.
  - intros Hab Hbc. exact (less_neg_trans c b a Hbc Hab).
Qed.

Lemma scalar_le_refl x : ¬ isna x → scalar_le x x.
Proof.
  destruct x as [a|a|]; simpl; [intros _..|tauto].
  - apply Qle_refl.
  - apply (less_irrefl (less := String.ltb)).
Qed.

Lemma scalar_le_antisym x y : scalar_le x y → scalar_le y x → same_key x y.
Proof.
  destruct x as [a|a|], y as [b|b|]; simpl; try done.
  - intros Hab Hba. apply Is_true_true, Qeq_bool_iff. by apply Qle_antisym.
  - unfold String.ltb. rewrite (String.compare_antisym b a).
    destruct (String.compare a b) eqn:Hc; simpl; try done.
    apply String.compare_eq_iff in Hc as ->. intros _ _.
    apply Is_true_true, String.eqb_refl.
Qed.

(** The ranked column is fixed, up to equal keys, by the values it is made
    of. *)
Lemma ranked_keys_unique (ascending : bool) (p1 p2 : list scalar) n1 n2 :
  Forall (λ x, ¬ isna x) p1 → Forall (λ x, ¬ isna x) p2 →
  StronglySorted (if ascending then scalar_le else flip scalar_le) p1 →
  StronglySorted (if ascending then scalar_le else flip scalar_le) p2 →
  p1 ++ replicate n1 NaN ≡ₚ p2 ++ replicate n2 NaN →
  Forall2 same_rank (p1 ++ replicate n1 NaN) (p2 ++ replicate n2 NaN).
Proof.
  intros Hp1 Hp2 Hs1 Hs2 Hperm.
  assert (Hdrop : ∀ p n, Forall (λ x, ¬ isna x) p →
            filter (λ x, ¬ isna x) (p ++ replicate n NaN) = p).
  { intros p n Hp. rewrite filter_app, filter_all by done.
    rewrite filter_none; [by rewrite (right_id_L [] (++))|].
    apply Forall_forall. intros x [-> _]%elem_of_replicate. simpl. tauto. }
  assert (Hpp : p1 ≡ₚ p2).
  { rewrite <-(Hdrop p1 n1 Hp1), <-(Hdrop p2 n2 Hp2). by rewrite Hperm. }
  assert (n1 = n2) as <-.
  { apply Permutation_length in Hperm, Hpp.
    rewrite !length_app, !length_replicate in Hperm. lia. }
  apply Forall2_app; [|apply Forall2_replicate; left; by split].
  set (R := if ascending then scalar_le else flip scalar_le) in *.
  assert (HR : Transitive R).
  { unfold R. destruct ascending; [apply scalar_le_trans|].
    intros x y z Hxy Hyz. unfold flip in *. by eapply scalar_le_trans. }
  eapply Forall2_impl; [apply (sorted_perm_tied R p1 p2); [|done..]|].
  - eapply Forall_impl; [exact Hp1|]. intros x Hx. unfold R.
    destruct ascending; by apply scalar_le_refl.
  - intros x y [Hxy Hyx]. right. unfold R in Hxy, Hyx.
    destruct ascending; by apply scalar_le_antisym.
Qed.

Lemma same_key_sym x y : same_key x y → same_key y x.
Proof.
  destruct x as [a|a|], y as [b|b|]; simpl; try done.
  - rewrite !Is_true_true, !Qeq_bool_iff. by symmetry.
  - rewrite !Is_true_true, !String.eqb_eq. by symmetry.
Qed.

(** A ranking of a column that is ranked already, and has no two equal
    keys, leaves every position where it is. *)
Lemma ranked_distinct_identity (vals p : list scalar) n (idx : list nat) :
  vals = p ++ replicate n NaN → Forall (λ x, ¬ isna x) p →
  distinct_keys vals →
  idx ≡ₚ seq 0 (length vals) →
  Forall2 same_rank ((vals !!!.) <$> idx) vals →
  filter (λ i, isna (vals !!! i)) idx
  = filter (λ i, isna (vals !!! i)) (seq 0 (length vals)) →
  idx = seq 0 (length vals).
Proof.
  intros Hvals Hp Hdist Hperm Hsame Hnan.
  assert (Hlen : length vals = length p + n).
  { by rewrite Hvals, length_app, length_replicate. }
  assert (Hidx : length idx = length p + n).
  { by rewrite Hperm, length_seq. }
  assert (Hat : ∀ j, j < length vals → vals !! j = Some (vals !!! j)).
  { intros j Hj. by apply list_lookup_lookup_total_lt. }
  assert (Hpresent : ∀ j, j < length p → ¬ isna (vals !!! j)).
  { intros j Hj. rewrite Hvals, lookup_total_app_l by done.
    rewrite Forall_forall in Hp. apply Hp, list_elem_of_lookup_total_2, Hj. }
  assert (Hmissing : ∀ j, length p ≤ j → j < length vals →
            vals !!! j = NaN).
  { intros j Hj Hj'. rewrite Hvals, lookup_total_app_r by done.
    apply list_lookup_total_correct, lookup_replicate_2. lia. }
  assert (Hrel : ∀ j ij, idx !! j = Some ij →
            ij < length vals ∧ same_rank (vals !!! ij) (vals !!! j)).
  { intros j ij Hij. split.
    - apply list_elem_of_lookup_2 in Hij. rewrite Hperm in Hij.
      apply elem_of_seq in Hij. lia.
    - apply (Forall2_lookup_lr _ _ _ j _ _ Hsame).
      + by rewrite list_lookup_fmap, Hij.
      + apply Hat. apply lookup_lt_Some in Hij. lia. }
  assert (Hhead : take (length p) idx = seq 0 (length p)).
  { apply list_eq. intros j.
    destruct (decide (j < length p)) as [Hj|Hj].
    2:{ rewrite lookup_take_ge, lookup_seq_ge by lia. done. }
    rewrite lookup_take_lt, lookup_seq_lt by done. simpl.
    destruct (lookup_lt_is_Some_2 idx j) as [ij Hij]; [lia|].
    rewrite Hij. f_equal.
    destruct (Hrel j ij Hij) as [Hbound [[_ Hna]|Hkey]].
    { by apply Hpresent in Hna. }
    destruct (decide (ij = j)) as [|Hne]; [done|]. exfalso.
    destruct (decide (ij < j)).
    - exact (Hdist ij j _ _ ltac:(lia) (Hat ij Hbound) (Hat j ltac:(lia))
               Hkey).
    - exact (Hdist j ij _ _ ltac:(lia) (Hat j ltac:(lia)) (Hat ij Hbound)
               (same_key_sym _ _ Hkey)). }
  assert (Htail : Forall (λ i, isna (vals !!! i)) (drop (length p) idx)).
  { apply Forall_forall. intros ij [j Hj]%list_elem_of_lookup.
    rewrite lookup_drop in Hj.
    destruct (Hrel _ ij Hj) as [Hbound [[Hna _]|Hkey]]; [done|].
    apply lookup_lt_Some in Hj.
    rewrite (Hmissing (length p + j)) in Hkey by lia.
    by rewrite same_key_nan in Hkey. }
  rewrite <-(take_drop (length p) idx), Hhead in Hnan |- *.
  rewrite Hlen, seq_app in Hnan |- *. f_equal.
  rewrite !filter_app in Hnan.
  rewrite (filter_none _ (seq 0 (length p))) in Hnan.
  2:{ apply Forall_forall. intros j Hj%elem_of_seq. apply Hpresent. lia. }
  rewrite (filter_all _ (drop _ idx)) in Hnan by done.
  rewrite (filter_all _ (seq (0 + length p) n)) in Hnan; [done|].
  apply Forall_forall. intros j Hj%elem_of_seq.
  rewrite Hmissing by lia. done.
Qed.
End sorted_input.

(** * Further properties of the service *)
Module deployment_more.
Import list_facts sortspec pandas_facts deployment_facts pandas spec
  spec_more examples examples_more deployment_spec sorted_input.

(** ** The selector *)
Lemma well_formed_selected pos df :
  well_formed (reset_index (take_rows pos df)).
Proof.
  unfold well_formed. rewrite selected_len. unfold reset_index, take_rows.
  simpl. apply Forall_fmap, Forall_forall. intros [n s] _. simpl.
  by rewrite values_take_series, length_fmap.
Qed.

(** X1.  The frame the selector returns has the columns of the table, in the
    same order, every column as long as the frame, and the row labels
    [0, 1, ...] whatever the labels of the table were. *)
Theorem selected_frame_shape df m top_x out :
  _top_rows df m top_x = Return out →
  columns out = columns df ∧ well_formed out ∧ index out = seq 0 (len out).
Proof.
  intros Hout. destruct (ranks_by_total df m) as (c & asc & Hby).
  destruct (top_rows_inv _ _ _ _ _ _ Hby Hout) as (k & _ & ->).
  split; [apply columns_selected|]. split; [apply well_formed_selected|].
  rewrite selected_len. simpl. by rewrite len_take_rows.
Qed.

Lemma selected_frame_shape_witness :
  ∃ out, _top_rows scores3 xgboost 2 = Return out ∧
    columns out = columns scores3 ∧ well_formed out ∧
    index out = seq 0 (len out).
Proof.
  eexists. split; [vm_compute; reflexivity|].
  apply (selected_frame_shape scores3 xgboost 2). vm_compute. reflexivity.
Defined.

(** X2.  The selector returns [min(top_x, rows)] rows for a [top_x] that is
    not negative, none for [top_x = 0] included; a negative [top_x] leaves out
    the last [-top_x] rows of the ranking instead of failing. *)
Theorem selected_count df m top_x out :
  well_formed df → _top_rows df m top_x = Return out →
  Z.of_nat (len out)
  = (if bool_decide (0 ≤ top_x) then top_x `min` Z.of_nat (len df)
     else 0 `max` (Z.of_nat (len df) + top_x))%Z.
Proof.
  intros Hwf Hout. destruct (ranks_by_total df m) as (c & asc & Hby).
  destruct (top_rows_inv _ _ _ _ _ _ Hby Hout) as (k & Hk & ->).
  rewrite selected_len, length_take, nargsort_length.
  rewrite (column_length c df k Hwf Hk). unfold stop.
  case_bool_decide as Hpos.
  - rewrite (proj2 (Z.leb_le _ _)) by done. lia.
  - rewrite (proj2 (Z.leb_gt _ _)) by lia. lia.
Qed.

Lemma selected_count_witness :
  ∃ out, _top_rows scores3 xgboost (-1) = Return out ∧
    Z.of_nat (len out) = 2%Z.
Proof.
  eexists. split; [vm_compute; reflexivity|].
  apply (selected_count scores3 xgboost (-1)).
  - repeat constructor.
  - vm_compute. reflexivity.
Defined.

(** X3.  Asking for fewer rows gives the beginning of what asking for more
    gives. *)
Theorem smaller_top_x_is_prefix df m x1 x2 out1 out2 :
  (0 ≤ x1 ≤ x2)%Z →
  _top_rows df m x1 = Return out1 → _top_rows df m x2 = Return out2 →
  to_dict out1 = take (Z.to_nat x1) (to_dict out2).
Proof.
  intros Hx Hout1 Hout2. destruct (ranks_by_total df m) as (c & asc & Hby).
  destruct (top_rows_inv _ _ _ _ _ _ Hby Hout1) as (k & Hk & ->).
  destruct (top_rows_inv _ _ _ _ _ _ Hby Hout2) as (k' & Hk' & ->).
  assert (k' = k) as -> by congruence.
  rewrite !selected_to_dict, <-fmap_take, take_take. unfold stop.
  rewrite !(proj2 (Z.leb_le _ _)) by lia. do 2 f_equal. lia.
Qed.

Lemma smaller_top_x_is_prefix_witness :
  ∃ out1 out2,
    _top_rows scores3 xgboost 1 = Return out1 ∧
    _top_rows scores3 xgboost 3 = Return out2 ∧
    to_dict out1 = take 1 (to_dict out2).
Proof.
  eexists _, _. split; [vm_compute; reflexivity|].
  split; [vm_compute; reflexivity|].
  apply (smaller_top_x_is_prefix scores3 xgboost 1 3); [lia|..];
    vm_compute; reflexivity.
Defined.

(** X4.  The selector raises an HTTP error in one case only: the 422 that
    names the score column of the model, when the table has neither that
    column nor [rank]; [top_x] plays no part in it. *)
Theorem selector_failure df m top_x status detail :
  _top_rows df m top_x = Raise (HTTPException status detail) ↔
  (∃ c asc, ranks_by df m c asc ∧ (c ∉ columns df) ∧
     status = 422%Z ∧
     detail = "Expected column '" +:+ c +:+ "' was not found.").
Proof.
  split.
  - intros He. destruct (ranks_by_total df m) as (c & asc & Hby).
    exists c, asc. split; [done|].
    destruct (decide (c ∈ columns df)) as [Hc|Hc].
    + apply column_is_Some in Hc as [k Hk].
      by rewrite (top_rows_ranked df m top_x c asc k) in He.
    + split; [done|].
      rewrite (top_rows_missing df m top_x c asc) in He by done.
      by injection He as <- <-.
  - intros (c & asc & Hby & Hc & -> & ->).
    by apply (top_rows_missing df m top_x c asc).
Qed.

(** X5.  A table with a [rank] column is ranked by it whatever the model, and
    the two classifiers are ranked alike on every table. *)
Theorem rank_column_overrides_model df top_x :
  ("rank" ∈ columns df →
     ∀ m1 m2, _top_rows df m1 top_x = _top_rows df m2 top_x) ∧
  _top_rows df logistic_regression top_x = _top_rows df xgboost top_x.
Proof.
  split; [|done]. intros Hrank m1 m2. unfold _top_rows, ranked.
  by rewrite bool_decide_true.
Qed.

Lemma rank_column_overrides_model_witness :
  _top_rows ties18 weibull_tte_rnn 3 = _top_rows ties18 xgboost 3.
Proof.
  apply (proj1 (rank_column_overrides_model ties18 3)).
  vm_compute. right. by left.
Defined.

(** X6.  The rows left out rank no higher than the rows returned: the returned
    rows and the rest make up the table, and the key of a returned row is at
    least as high in the ranking as the key of a row of the rest. *)
Theorem selected_rows_rank_highest df m top_x c asc out :
  well_formed df → ranks_by df m c asc → _top_rows df m top_x = Return out →
  ∃ rest,
    to_dict out ++ rest ≡ₚ to_dict df ∧
    ∀ row row', row ∈ to_dict out → row' ∈ rest →
      ahead asc (get c row) (get c row').
Proof.
  intros Hwf Hby Hout.
  destruct (top_rows_inv _ _ _ _ _ _ Hby Hout) as (k & Hk & ->).
  pose proof (column_length c df k Hwf Hk) as Hlen.
  set (n := stop top_x (length (values k))).
  exists (record df <$> drop n (nargsort k asc)).
  rewrite selected_to_dict. split.
  - rewrite <-fmap_app, take_drop. unfold to_dict.
    by rewrite nargsort_perm, Hlen.
  - intros row row' Hrow Hrow'.
    apply (list_elem_of_fmap_2 (get c)) in Hrow, Hrow'.
    rewrite (get_sorted_rows c df k _ Hk) in Hrow.
    rewrite (get_sorted_rows c df k _ Hk) in Hrow'.
    rewrite fmap_take in Hrow. rewrite fmap_drop in Hrow'.
    destruct (nargsort_keys k asc) as (present & cnt & Hkeys & Hp & Hs).
    rewrite Hkeys in Hrow, Hrow'.
    apply list_elem_of_lookup in Hrow as [i Hi].
    apply list_elem_of_lookup in Hrow' as [j Hj].
    pose proof (lookup_lt_Some _ _ _ Hi) as Hin. rewrite length_take in Hin.
    rewrite lookup_take_lt in Hi by lia. rewrite lookup_drop in Hj.
    destruct (decide (n + j < length present)) as [Hlt|Hge].
    + rewrite lookup_app_l in Hi by lia. rewrite lookup_app_l in Hj by lia.
      right.
      pose proof (sorted_pairwise _ _ Hs i (n + j) _ _ ltac:(lia) Hi Hj)
        as Hord.
      by destruct asc.
    + rewrite lookup_app_r in Hj by lia.
      apply lookup_replicate in Hj as [-> _]. by left.
Qed.

Lemma selected_rows_rank_highest_witness :
  ∃ out rest,
    _top_rows scores3 xgboost 2 = Return out ∧
    to_dict out ++ rest ≡ₚ to_dict scores3 ∧
    ∀ row row', row ∈ to_dict out → row' ∈ rest →
      ahead false (get "prob_first_time_investor" row)
        (get "prob_first_time_investor" row').
Proof.
  eexists.
  destruct (selected_rows_rank_highest scores3 xgboost 2
              "prob_first_time_investor" false _
              ltac:(repeat constructor)
              ltac:(apply by_prob; [vm_compute; not_listed|right; by left])
              eq_refl) as [rest H].
  exists rest. split; [reflexivity|exact H].
Defined.

Lemma take_series_all s : take_series (seq 0 (length (values s))) s = s.
Proof.
  destruct s as [xs|xs]; simpl;
    by rewrite length_fmap, fmap_lookup_total_seq.
Qed.

Lemma take_rows_all df :
  well_formed df → index df = seq 0 (len df) →
  reset_index (take_rows (seq 0 (len df)) df) = df.
Proof.
  intros Hwf Hix. destruct df as [cols ix]. unfold reset_index.
  rewrite len_take_rows, length_seq. unfold take_rows. simpl in *.
  f_equal; [|done]. transitivity (id <$> cols); [|apply list_fmap_id].
  apply Forall_fmap_ext_1. eapply Forall_impl; [exact Hwf|].
  intros [n s] Hs. simpl in *. unfold prod_map. simpl.
  by rewrite <-Hs, take_series_all.
Qed.

Lemma ranks_by_columns df df' m c asc :
  columns df' = columns df → ranks_by df m c asc → ranks_by df' m c asc.
Proof.
  intros Hcols [Hrank|Hno Hm|Hno ->].
  - apply by_rank. by rewrite Hcols.
  - apply by_prob; [by rewrite Hcols|done].
  - apply by_risk; [by rewrite Hcols|done].
Qed.

Lemma ranked_keys_perm k asc :
  (values k !!!.) <$> nargsort k asc ≡ₚ values k.
Proof. by rewrite nargsort_perm, fmap_lookup_total_seq. Qed.

(** X7.  Ranking an answer once more, with a [top_x] that covers it,
    succeeds and changes nothing but, at most, the order among rows with
    equal keys: the second answer holds the rows of the first, with the
    same key in every place and the rows without a key in the same order;
    it is the first answer itself when no two of its present keys are
    equal. *)
Theorem selecting_twice df m top_x c asc out top_x' :
  ranks_by df m c asc → _top_rows df m top_x = Return out →
  (Z.of_nat (len out) ≤ top_x')%Z →
  ∃ out',
    _top_rows out m top_x' = Return out' ∧
    to_dict out' ≡ₚ to_dict out ∧
    Forall2 same_rank (cells c out') (cells c out) ∧
    rows_with c isna (to_dict out') = rows_with c isna (to_dict out) ∧
    (distinct_keys (cells c out) → out' = out).
Proof.
  intros Hby Hout Hx'.
  destruct (selected_column _ _ _ _ _ _ Hby Hout) as (p & n & Hcells & Hp & Hs).
  destruct (top_rows_inv _ _ _ _ _ _ Hby Hout) as (k & Hk & ->).
  set (pos := take (stop top_x (length (values k))) (nargsort k asc)) in *.
  set (out := reset_index (take_rows pos df)) in *.
  set (k' := take_series pos k).
  assert (Hk' : column c out = Some k').
  { replace (column c out) with (column c (take_rows pos df)) by done.
    by rewrite column_take_rows, Hk. }
  assert (Hlen : length (values k') = len out).
  { unfold k', out. by rewrite values_take_series, length_fmap, selected_len. }
  unfold cells in Hcells. rewrite Hk' in Hcells. simpl in Hcells.
  assert (Hsame : Forall2 same_rank
            ((values k' !!!.) <$> nargsort k' asc) (values k')).
  { destruct (nargsort_keys k' asc) as (p' & n' & Hkeys' & Hp' & Hs').
    rewrite Hkeys', Hcells. apply (ranked_keys_unique asc); [done..|].
    by rewrite <-Hkeys', <-Hcells, ranked_keys_perm. }
  eexists. split.
  { apply (top_rows_ranked out m top_x' c asc k'); [|done].
    by apply (ranks_by_columns df), Hby; apply columns_selected. }
  rewrite take_ge.
  2:{ rewrite nargsort_length, Hlen. unfold stop.
      rewrite (proj2 (Z.leb_le _ _)) by lia. lia. }
  rewrite selected_to_dict, (selected_cells c _ out k' Hk').
  unfold cells. rewrite Hk'. simpl. unfold to_dict. rewrite <-Hlen.
  split; [by rewrite nargsort_perm|]. split; [done|]. split.
  - rewrite !(rows_with_record c _ out k' _ Hk'). f_equal.
    apply nargsort_nan.
  - intros Hdist.
    rewrite (ranked_distinct_identity (values k') p n (nargsort k' asc));
      [|done|done|done|apply nargsort_perm|done|apply nargsort_nan].
    rewrite Hlen. apply take_rows_all.
    + apply well_formed_selected.
    + unfold out. by rewrite selected_len; simpl; rewrite len_take_rows.
Qed.

Lemma selecting_twice_witness :
  ∃ out out',
    _top_rows risks3 weibull_tte_rnn 2 = Return out ∧
    _top_rows out weibull_tte_rnn 2 = Return out' ∧
    to_dict out' ≡ₚ to_dict out ∧
    Forall2 same_rank (cells "risk_6m" out') (cells "risk_6m" out) ∧
    rows_with "risk_6m" isna (to_dict out')
    = rows_with "risk_6m" isna (to_dict out) ∧
    (distinct_keys (cells "risk_6m" out) → out' = out).
Proof.
  eexists.
  destruct (selecting_twice risks3 weibull_tte_rnn 2 "risk_6m" false _ 2
              ltac:(apply by_risk; [vm_compute; not_listed|done])
              eq_refl ltac:(vm_compute; discriminate)) as [out' H].
  exists out'. split; [reflexivity|exact H].
Defined.

(** X8.  The keys that come back do not depend on the order of the rows in the
    file: for two tables whose ranking columns hold the same values in another
    order, the ranking columns of the two answers agree row by row, each pair
    of cells being both missing or equal. (Which of the rows with equal keys
    come back may differ.) *)
Theorem keys_ignore_row_order df1 df2 m top_x c asc out1 out2 :
  ranks_by df1 m c asc → ranks_by df2 m c asc →
  cells c df1 ≡ₚ cells c df2 →
  _top_rows df1 m top_x = Return out1 → _top_rows df2 m top_x = Return out2 →
  Forall2 same_rank (cells c out1) (cells c out2).
Proof.
  intros Hby1 Hby2 Hperm Hout1 Hout2.
  destruct (top_rows_inv _ _ _ _ _ _ Hby1 Hout1) as (k1 & Hk1 & ->).
  destruct (top_rows_inv _ _ _ _ _ _ Hby2 Hout2) as (k2 & Hk2 & ->).
  unfold cells in Hperm. rewrite Hk1, Hk2 in Hperm. simpl in Hperm.
  rewrite (selected_cells c _ df1 k1 Hk1), (selected_cells c _ df2 k2 Hk2).
  rewrite !fmap_take, <-(Permutation_length Hperm).
  apply Forall2_take.
  destruct (nargsort_keys k1 asc) as (p1 & n1 & Hkeys1 & Hp1 & Hs1).
  destruct (nargsort_keys k2 asc) as (p2 & n2 & Hkeys2 & Hp2 & Hs2).
  rewrite Hkeys1, Hkeys2. apply (ranked_keys_unique asc); [done..|].
  by rewrite <-Hkeys1, <-Hkeys2, !ranked_keys_perm.
Qed.

Lemma keys_ignore_row_order_witness :
  ∃ out1 out2,
    _top_rows scores3 xgboost 2 = Return out1 ∧
    _top_rows scores3_reordered xgboost 2 = Return out2 ∧
    Forall2 same_rank (cells "prob_first_time_investor" out1)
      (cells "prob_first_time_investor" out2).
Proof.
  eexists _, _. split; [vm_compute; reflexivity|].
  split; [vm_compute; reflexivity|].
  apply (keys_ignore_row_order scores3 scores3_reordered xgboost 2
           "prob_first_time_investor" false).
  - apply by_prob; [vm_compute; not_listed|right; by left].
  - apply by_prob; [vm_compute; not_listed|right; by left].
  - unfold cells. simpl.
    change ([Num (9 # 10); Num (9 # 10); Num (5 # 10)]
            ≡ₚ [Num (5 # 10)] ++ [Num (9 # 10); Num (9 # 10)]).
    by rewrite (comm (++)).
  - vm_compute. reflexivity.
  - vm_compute. reflexivity.
Defined.

(** X9.  Rows without a key come back only when the rows with one run
    out: for a [top_x] from 0 up to the number of present values of the
    ranking column, no row of the answer has a missing key. *)
Theorem missing_keys_only_when_needed df m top_x c asc out :
  ranks_by df m c asc → _top_rows df m top_x = Return out →
  (0 ≤ top_x ≤ Z.of_nat (length (dropna (cells c df))))%Z →
  Forall (λ x, ¬ isna x) (cells c out).
Proof.
  intros Hby Hout Hx.
  destruct (top_rows_inv _ _ _ _ _ _ Hby Hout) as (k & Hk & ->).
  unfold cells in Hx. rewrite Hk in Hx. simpl in Hx.
  rewrite (selected_cells c _ df k Hk), fmap_take.
  destruct (nargsort_keys k asc) as (present & n & Hkeys & Hp & _).
  assert (Hlen : length (dropna (values k)) = length present).
  { unfold dropna. rewrite <-(ranked_keys_perm k asc), Hkeys, filter_app.
    fold (dropna present). fold (dropna (replicate n NaN)).
    by rewrite dropna_present, dropna_replicate, (right_id_L [] (++)). }
  rewrite Hkeys, take_app_le.
  - by apply Forall_take.
  - unfold stop. rewrite (proj2 (Z.leb_le _ _)) by lia. lia.
Qed.

Lemma missing_keys_only_when_needed_witness :
  ∃ out, _top_rows null_rank xgboost 1 = Return out ∧
    Forall (λ x, ¬ isna x) (cells "rank" out).
Proof.
  eexists. split; [vm_compute; reflexivity|].
  apply (missing_keys_only_when_needed null_rank xgboost 1 "rank" true).
  - apply by_rank. vm_compute. right. by left.
  - vm_compute. reflexivity.
  - vm_compute. split; discriminate.
Defined.

(** ** The loader *)
Lemma MODEL_FILES_inj : Inj (=) (=) MODEL_FILES.
Proof. by intros [] []. Qed.



(** X11.  The loader hands over the table as it was parsed, and only a table
    with at least one row and one column. *)
Theorem loader_success fs m df :
  _load_predictions fs m = Return df ↔
  fs !! MODEL_FILES m = Some (Table df) ∧ 0 < len df ∧ columns df ≠ [].
Proof.
  unfold _load_predictions, empty. split.
  - destruct (fs !! MODEL_FILES m) as [[error|df']|]; simpl; [done| |done].
    destruct (len df' =? 0) eqn:Hrows; simpl; [done|].
    destruct (length (columns df') =? 0) eqn:Hcols; [done|].
    intros [= ->]. apply Nat.eqb_neq in Hrows, Hcols.
    split; [done|]. split; [lia|]. intros Heq. by rewrite Heq in Hcols.
  - intros (-> & Hrows & Hcols). simpl.
    rewrite (proj2 (Nat.eqb_neq _ _)) by lia. simpl.
    rewrite (proj2 (Nat.eqb_neq _ _)); [done|].
    by destruct (columns df).
Qed.

(** X12.  Each model has a file of its own: writing or removing the file of
    one model changes no answer for another model. *)
Theorem models_read_separate_files fs m m' f top_x output :
  m ≠ m' →
  get_predictions (<[MODEL_FILES m' := f]> fs) m top_x output
  = get_predictions fs m top_x output ∧
  get_predictions (delete (MODEL_FILES m') fs) m top_x output
  = get_predictions fs m top_x output.
Proof.
  intros Hm.
  assert (MODEL_FILES m' ≠ MODEL_FILES m) by (by intros ->%MODEL_FILES_inj).
  unfold get_predictions, _load_predictions.
  by rewrite lookup_insert_ne, lookup_delete_ne.
Qed.

Lemma models_read_separate_files_witness :
  get_predictions (<["logreg_predictions_all.csv" := Table ties18]> fs_scores)
    xgboost 2 json
  = get_predictions fs_scores xgboost 2 json.
Proof.
  refine (proj1 (models_read_separate_files fs_scores xgboost
                   logistic_regression (Table ties18) 2 json _)).
  discriminate.
Defined.

(** ** The handler *)
Lemma to_csv_to_dict df : to_csv df = (columns df, cells_of <$> to_dict df).
Proof.
  unfold to_csv, to_dict, cells_of. f_equal. rewrite <-list_fmap_compose.
  apply list_fmap_ext. intros _ i _. simpl. unfold record.
  rewrite <-list_fmap_compose. by apply list_fmap_ext.
Qed.

Lemma get_predictions_selected fs m x output df top_df :
  _load_predictions fs m = Return df → _top_rows df m x = Return top_df →
  get_predictions fs m x output
  = match output with
    | csv =>
        Return (PlainTextResponse (to_csv top_df) "text/csv"
          ("attachment; filename=" +:+ value m +:+ "_top_" +:+ pretty x
             +:+ ".csv"))
    | json =>
        render_json {| model := value m; top_x := x;
                       count := Z.of_nat (len top_df);
                       results := to_dict top_df |}
    end.
Proof.
  intros Hload Htop. unfold get_predictions. rewrite Hload. simpl.
  rewrite Htop. simpl. by destruct output.
Qed.

Lemma get_predictions_cases fs m x output :
  (∃ e, _load_predictions fs m = Raise e ∧
     get_predictions fs m x output = Raise e) ∨
  (∃ df e, _load_predictions fs m = Return df ∧
     _top_rows df m x = Raise e ∧ get_predictions fs m x output = Raise e) ∨
  (∃ df top_df, _load_predictions fs m = Return df ∧
     _top_rows df m x = Return top_df).
Proof.
  destruct (_load_predictions fs m) as [df|e] eqn:Hload.
  - destruct (_top_rows df m x) as [top_df|e] eqn:Htop.
    + right. right. by exists df, top_df.
    + right. left. exists df, e. split; [done|]. split; [done|].
      by apply get_predictions_rank_error with df.
  - left. exists e. split; [done|]. by apply get_predictions_load_error.
Qed.

Lemma load_raise_status fs m e :
  _load_predictions fs m = Raise e →
  ∃ status detail, e = HTTPException status detail ∧ status ∈ [404; 500]%Z.
Proof.
  unfold _load_predictions.
  destruct (fs !! MODEL_FILES m) as [[error|df]|]; simpl.
  - intros [= <-]. eexists _, _. split; [done|]. right. by left.
  - destruct (empty df); [|done]. intros [= <-].
    eexists _, _. split; [done|]. by left.
  - intros [= <-]. eexists _, _. split; [done|]. by left.
Qed.

Lemma top_rows_raise_status df m x e :
  _top_rows df m x = Raise e → ∃ detail, e = HTTPException 422 detail.
Proof.
  intros He. destruct (ranks_by_total df m) as (c & asc & Hby).
  destruct (decide (c ∈ columns df)) as [Hc|Hc].
  - apply column_is_Some in Hc as [k Hk].
    by rewrite (top_rows_ranked df m x c asc k) in He.
  - rewrite (top_rows_missing df m x c asc) in He by done.
    eexists. by injection He as <-.
Qed.

Lemma render_json_raise c e : render_json c = Raise e → e = ValueError.
Proof. unfold render_json. destruct (json_compliant c); congruence. Qed.

(** X13.  A successful CSV answer is served as [text/csv] under the download
    name [<model>_top_<top_x>.csv]; its header is the column names of the
    backing table in their order, and its lines are the selected rows in
    order, each with one cell per column. *)
Theorem csv_answer fs m x resp :
  get_predictions fs m x csv = Return resp →
  ∃ df top_df header lines,
    _load_predictions fs m = Return df ∧
    _top_rows df m x = Return top_df ∧
    resp = PlainTextResponse (header, lines) "text/csv"
             ("attachment; filename=" +:+ value m +:+ "_top_" +:+ pretty x
                +:+ ".csv") ∧
    header = columns df ∧
    lines = cells_of <$> to_dict top_df ∧
    Forall (λ line, length line = length header) lines.
Proof.
  intros Hresp.
  destruct (get_predictions_cases fs m x csv)
    as [(e & _ & He)|[(df & e & _ & _ & He)|(df & top_df & Hload & Htop)]];
    [congruence..|].
  rewrite (get_predictions_selected _ _ _ _ _ _ Hload Htop) in Hresp.
  injection Hresp as <-. rewrite to_csv_to_dict.
  destruct (ranks_by_total df m) as (c & asc & Hby).
  destruct (top_rows_inv _ _ _ _ _ _ Hby Htop) as (k & _ & Hout).
  exists df, top_df, (columns df), (cells_of <$> to_dict top_df).
  split; [done|]. split; [done|]. split.
  { do 2 f_equal. subst top_df. apply columns_selected. }
  split; [done|]. split; [done|].
  apply Forall_fmap, Forall_forall. intros row Hrow. simpl.
  unfold to_dict in Hrow. apply list_elem_of_fmap_1 in Hrow as (i & -> & _).
  unfold cells_of. rewrite length_fmap, <-(length_fmap fst), record_names.
  subst top_df. by rewrite columns_selected.
Qed.

Lemma csv_answer_witness :
  ∃ resp df top_df header lines,
    get_predictions fs_scores xgboost 2 csv = Return resp ∧
    _load_predictions fs_scores xgboost = Return df ∧
    _top_rows df xgboost 2 = Return top_df ∧
    resp = PlainTextResponse (header, lines) "text/csv"
             "attachment; filename=xgboost_top_2.csv" ∧
    header = columns df ∧
    lines = cells_of <$> to_dict top_df ∧
    Forall (λ line, length line = length header) lines.
Proof.
  eexists.
  destruct (csv_answer fs_scores xgboost 2 _ eq_refl)
    as (df & top_df & header & lines & H).
  exists df, top_df, header, lines. split; [reflexivity|]. exact H.
Defined.

(** X14.  The two formats carry the same data: when the JSON answer succeeds,
    the CSV answer to the same request succeeds, its lines are the cells of
    the JSON rows in order, and its header is the names every JSON row gives
    to its cells. *)
Theorem formats_carry_same_rows fs m x body :
  get_predictions fs m x json = Return (JSONResponse body) →
  ∃ header lines media_type disposition,
    get_predictions fs m x csv
    = Return (PlainTextResponse (header, lines) media_type disposition) ∧
    lines = cells_of <$> results body ∧
    Forall (λ row, row.*1 = header) (results body).
Proof.
  intros Hresp.
  destruct (get_predictions_cases fs m x json)
    as [(e & _ & He)|[(df & e & _ & _ & He)|(df & top_df & Hload & Htop)]];
    [congruence..|].
  rewrite (get_predictions_selected _ _ _ _ _ _ Hload Htop) in Hresp.
  unfold render_json in Hresp. destruct (json_compliant _); [|done].
  injection Hresp as <-. simpl.
  rewrite (get_predictions_selected _ _ _ _ _ _ Hload Htop), to_csv_to_dict.
  eexists _, _, _, _. split; [done|]. split; [done|].
  apply Forall_forall. intros row (i & -> & _)%list_elem_of_fmap_1.
  apply record_names.
Qed.

Lemma formats_carry_same_rows_witness :
  ∃ body header lines media_type disposition,
    get_predictions fs_scores xgboost 2 json = Return (JSONResponse body) ∧
    get_predictions fs_scores xgboost 2 csv
    = Return (PlainTextResponse (header, lines) media_type disposition) ∧
    lines = cells_of <$> results body ∧
    Forall (λ row, row.*1 = header) (results body).
Proof.
  eexists.
  destruct (formats_carry_same_rows fs_scores xgboost 2 _ eq_refl)
    as (header & lines & media_type & disposition & H).
  exists header, lines, media_type, disposition.
  split; [reflexivity|]. exact H.
Defined.

(** X15.  A missing cell among the selected rows makes the JSON answer fail
    with a [ValueError], which is not one of the HTTP errors of the module;
    the CSV answer to the same request succeeds. *)
Theorem missing_cell_fails_json_only fs m x df top_df :
  _load_predictions fs m = Return df → _top_rows df m x = Return top_df →
  has_missing (to_dict top_df) →
  get_predictions fs m x json = Raise ValueError ∧
  ∃ resp, get_predictions fs m x csv = Return resp.
Proof.
  intros Hload Htop (row & name & Hrow & Hcell).
  rewrite !(get_predictions_selected _ _ _ _ _ _ Hload Htop).
  split; [|by eexists]. unfold render_json.
  destruct (json_compliant _) eqn:Hok; [|done]. exfalso.
  unfold json_compliant in Hok. simpl in Hok.
  rewrite forallb_forall in Hok.
  specialize (Hok row ltac:(by apply list_elem_of_In)).
  rewrite forallb_forall in Hok.
  by specialize (Hok (name, NaN) ltac:(by apply list_elem_of_In)).
Qed.

Lemma missing_cell_fails_json_only_witness :
  get_predictions {[ "xgb_predictions_all.csv" := Table null_rank ]}
    xgboost 2 json = Raise ValueError ∧
  ∃ resp, get_predictions {[ "xgb_predictions_all.csv" := Table null_rank ]}
    xgboost 2 csv = Return resp.
Proof.
  apply (missing_cell_fails_json_only _ xgboost 2 null_rank
           (reset_index (take_rows [1; 0] null_rank))).
  - vm_compute. reflexivity.
  - vm_compute. reflexivity.
  - exists [("customer_id", Num 1); ("rank", NaN)], "rank".
    split; [vm_compute|]; right; by left.
Defined.

(** X16.  An HTTP error does not depend on the format asked for. *)
Theorem http_errors_ignore_format fs m x output output' status detail :
  get_predictions fs m x output = Raise (HTTPException status detail) →
  get_predictions fs m x output' = Raise (HTTPException status detail).
Proof.
  intros Herr.
  destruct (get_predictions_cases fs m x output)
    as [(e & Hload & He)|[(df & e & Hload & Htop & He)
                         |(df & top_df & Hload & Htop)]].
  - rewrite Herr in He. injection He as <-.
    by apply get_predictions_load_error.
  - rewrite Herr in He. injection He as <-.
    by apply get_predictions_rank_error with df.
  - rewrite (get_predictions_selected _ _ _ _ _ _ Hload Htop) in Herr.
    destruct output; [|done]. by apply render_json_raise in Herr.
Qed.

Lemma http_errors_ignore_format_witness :
  get_predictions fs_no_score xgboost 2 csv
  = Raise (HTTPException 422
      "Expected column 'prob_first_time_investor' was not found.").
Proof.
  apply (http_errors_ignore_format fs_no_score xgboost 2 json csv).
  vm_compute. reflexivity.
Defined.

(** X17.  The HTTP errors of the handler are those of the loader and of
    the selector, passed on unchanged: a 404 or a 500 raised by the loader,
    or, for a table that loaded, the 422 raised by the selector. *)
Theorem handler_failures fs m x output status detail :
  get_predictions fs m x output = Raise (HTTPException status detail) →
  (status ∈ [404; 500]%Z ∧
   _load_predictions fs m = Raise (HTTPException status detail)) ∨
  (status = 422%Z ∧
   ∃ df, _load_predictions fs m = Return df ∧
     _top_rows df m x = Raise (HTTPException status detail)).
Proof.
  intros Herr.
  destruct (get_predictions_cases fs m x output)
    as [(e & Hload & He)|[(df & e & Hload & Htop & He)
                         |(df & top_df & Hload & Htop)]].
  - assert (e = HTTPException status detail) as -> by congruence.
    destruct (load_raise_status _ _ _ Hload) as (s & d & [= <- <-] & Hs).
    by left.
  - assert (e = HTTPException status detail) as -> by congruence.
    destruct (top_rows_raise_status _ _ _ _ Htop) as (d & [= -> <-]).
    right. split; [done|]. by exists df.
  - rewrite (get_predictions_selected _ _ _ _ _ _ Hload Htop) in Herr.
    destruct output; [|done]. by apply render_json_raise in Herr.
Qed.

Lemma handler_failures_witness :
  ∃ status detail,
    get_predictions fs_no_score xgboost 2 json
    = Raise (HTTPException status detail) ∧
    ((status ∈ [404; 500]%Z ∧
      _load_predictions fs_no_score xgboost
      = Raise (HTTPException status detail)) ∨
     (status = 422%Z ∧
      ∃ df, _load_predictions fs_no_score xgboost = Return df ∧
        _top_rows df xgboost 2 = Raise (HTTPException status detail))).
Proof.
  eexists _, _. split; [vm_compute; reflexivity|].
  apply (handler_failures fs_no_score xgboost 2 json).
  vm_compute. reflexivity.
Defined.

Lemma length_append (a b : string) :
  String.length (a +:+ b) = String.length a + String.length b.
Proof. induction a as [|x a IH]; [done|]. simpl. by rewrite IH. Qed.

Lemma append_inj_r (a b s : string) : a +:+ s = b +:+ s → a = b.
Proof.
  revert b. induction a as [|x a IH]; intros [|y b] Heq; simpl in Heq.
  - done.
  - apply (f_equal String.length) in Heq.
    rewrite !length_append in Heq. simpl in Heq. lia.
  - apply (f_equal String.length) in Heq.
    rewrite !length_append in Heq. simpl in Heq. lia.
  - injection Heq as -> Heq. f_equal. by apply IH.
Qed.

(** X18.  The download name of a CSV answer tells the model and the [top_x] of
    the request: two answers with the same [Content-Disposition] were asked
    for with the same model and the same [top_x]. *)
Theorem download_name_identifies_request
    fs1 fs2 m1 m2 x1 x2 body1 body2 type1 type2 disposition :
  get_predictions fs1 m1 x1 csv
  = Return (PlainTextResponse body1 type1 disposition) →
  get_predictions fs2 m2 x2 csv
  = Return (PlainTextResponse body2 type2 disposition) →
  m1 = m2 ∧ x1 = x2.
Proof.
  intros H1 H2.
  destruct (get_predictions_cases fs1 m1 x1 csv)
    as [(e & _ & He)|[(df & e & _ & _ & He)|(df1 & top1 & Hload1 & Htop1)]];
    [congruence..|].
  destruct (get_predictions_cases fs2 m2 x2 csv)
    as [(e & _ & He)|[(df & e & _ & _ & He)|(df2 & top2 & Hload2 & Htop2)]];
    [congruence..|].
  rewrite (get_predictions_selected _ _ _ _ _ _ Hload1 Htop1) in H1.
  rewrite (get_predictions_selected _ _ _ _ _ _ Hload2 Htop2) in H2.
  injection H1 as _ _ <-. injection H2 as _ _ Hname.
  apply (inj (String.app _)) in Hname.
  assert (Hx : m1 = m2 → pretty x2 = pretty x1 → m1 = m2 ∧ x1 = x2).
  { intros -> Hp. split; [done|]. symmetry. by apply (inj pretty). }
  destruct m1, m2; simpl in Hname; try discriminate Hname;
    (apply Hx; [done|]); simplify_eq/=; by eapply append_inj_r.
Qed.

Lemma download_name_identifies_request_witness :
  ∃ body type disposition,
    get_predictions fs_scores xgboost 2 csv
    = Return (PlainTextResponse body type disposition) ∧
    xgboost = xgboost ∧ 2%Z = 2%Z.
Proof.
  eexists _, _, _. split; [vm_compute; reflexivity|].
  eapply (download_name_identifies_request fs_scores fs_scores xgboost xgboost
            2 2); vm_compute; reflexivity.
Defined.

(** ** The route *)
Lemma ModelChoice_of_value_Some s m :
  ModelChoice_of_value s = Some m ↔ s = value m.
Proof.
  unfold ModelChoice_of_value. split.
  - intros ((i & m') & Hfind & Hm)%fmap_Some. simpl in Hm. subst m'.
    by apply list_find_Some in Hfind as (_ & <- & _).
  - intros ->. by destruct m.
Qed.

Lemma OutputFormat_of_value_Some s o :
  OutputFormat_of_value s = Some o ↔ s = OutputFormat_value o.
Proof.
  unfold OutputFormat_of_value. split.
  - intros ((i & o') & Hfind & Ho)%fmap_Some. simpl in Ho. subst o'.
    by apply list_find_Some in Hfind as (_ & <- & _).
  - intros ->. by destruct o.
Qed.

Lemma get_predictions_not_validation fs m x output :
  get_predictions fs m x output ≠ Raise RequestValidationError.
Proof.
  intros Herr.
  destruct (get_predictions_cases fs m x output)
    as [(e & Hload & He)|[(df & e & Hload & Htop & He)
                         |(df & top_df & Hload & Htop)]].
  - destruct (load_raise_status _ _ _ Hload) as (? & ? & -> & _). congruence.
  - destruct (top_rows_raise_status _ _ _ _ Htop) as (? & ->). congruence.
  - rewrite (get_predictions_selected _ _ _ _ _ _ Hload Htop) in Herr.
    destruct output; [|done]. by apply render_json_raise in Herr.
Qed.

(** X19.  A query that names a model by its identifier, and gives no [top_x]
    or one in [1, 100000], and no output or the identifier of a format,
    reaches the handler with the members those identifiers stand for, 1000 for
    an absent [top_x] and [json] for an absent output. *)
Theorem valid_query_reaches_handler fs m top_x output :
  (1 ≤ default 1000 top_x ≤ 100000)%Z →
  predictions_query fs (Some (value m)) top_x (OutputFormat_value <$> output)
  = get_predictions fs m (default 1000%Z top_x) (default json output).
Proof.
  intros Hx. unfold predictions_query. simpl.
  rewrite (proj2 (ModelChoice_of_value_Some (value m) m) eq_refl).
  unfold predictions.
  destruct output as [o|]; simpl.
  - rewrite (proj2 (OutputFormat_of_value_Some _ o) eq_refl).
    by rewrite bool_decide_true.
  - by rewrite bool_decide_true.
Qed.

Lemma valid_query_reaches_handler_witness :
  predictions_query fs_scores (Some "xgboost") None (Some "csv")
  = get_predictions fs_scores xgboost 1000 csv.
Proof.
  apply (valid_query_reaches_handler fs_scores xgboost None (Some csv)).
  simpl. lia.
Defined.

(** X20.  The route rejects a query exactly when it names no model or gives a
    text that is the identifier of none, or gives a [top_x] outside
    [1, 100000], or an output that is the identifier of no format; the
    prediction files play no part in it. *)
Theorem query_validation fs model top_x output :
  predictions_query fs model top_x output = Raise RequestValidationError ↔
  (∀ m, model ≠ Some (value m)) ∨
  ¬ (1 ≤ default 1000 top_x ≤ 100000)%Z ∨
  (∃ s, output = Some s ∧ ∀ o, s ≠ OutputFormat_value o).
Proof.
  unfold predictions_query.
  destruct model as [s|]; simpl; [|split; [by left|done]].
  destruct (ModelChoice_of_value s) as [m|] eqn:Hm.
  2:{ split; [|by destruct (OutputFormat_of_value <$> output) as [[?|]|]].
      intros _. left. intros m [= ->].
      by rewrite (proj2 (ModelChoice_of_value_Some _ m) eq_refl) in Hm. }
  apply ModelChoice_of_value_Some in Hm as ->.
  assert (Hmodel : ¬ ∀ m', Some (value m) ≠ Some (value m'))
    by (intros Hno; by apply (Hno m)).
  destruct output as [s|]; simpl.
  - destruct (OutputFormat_of_value s) as [o|] eqn:Ho.
    + apply OutputFormat_of_value_Some in Ho as ->. unfold predictions. simpl.
      case_bool_decide as Hx.
      * split; [by intros ?%get_predictions_not_validation|].
        intros [?|[?|(s & [= <-] & Hs)]]; [done..|]. by destruct (Hs o).
      * split; [intros _; right; by left|done].
    + split; [|done]. intros _. do 2 right. exists s. split; [done|].
      intros o ->.
      by rewrite (proj2 (OutputFormat_of_value_Some _ o) eq_refl) in Ho.
  - unfold predictions. simpl. case_bool_decide as Hx.
    + split; [by intros ?%get_predictions_not_validation|].
      by intros [?|[?|(s & [=] & _)]].
    + split; [intros _; right; by left|done].
Qed.
End deployment_more.
